(** * E2EEcontext: the frame crypto transform of lib-jitsi-meet

    A shallow embedding of [modules/e2ee/E2EEContext.js] (in its most complete
    revision, the one that defines the constructor, [_encodeFunction] and
    [_decodeFunction]) together with the properties of the encoder and decoder
    transforms.

    Modelling conventions.
    - JavaScript numbers are integers [Z]; every number the code computes is
      an integer, and the embedding is exact as long as the send counters stay
      below 2^53.
    - An [ArrayBuffer] / [Uint8Array] is a [list byte].  Views and [set] raise
      [RangeError] out of range: they return [None].
    - [Math.random] is an input: [_encodeFunction] takes the value of
      [Math.floor(Math.random() * 0xFFFF)] it would draw.
    - [crypto.subtle] is an interface ([SubtleCrypto]); a promise that rejects
      is the result [None].
    - The effects of one call of a transform function are the new context and
      the list of [Event]s it performs, in order. *)

From Stdlib Require Import ZArith Lia.
From Stdlib Require Import Strings.Byte.
From stdpp Require Import base option list gmap strings pretty.

Local Open Scope Z_scope.

(** ** JavaScript primitives used by the module *)

Module Js.

(** [a % b]: the remainder has the sign of the dividend; [NaN] ([None])
    when the divisor is zero. *)
Definition rem (a b : Z) : option Z :=
  if b =? 0 then None else Some (Z.rem a b).

(** ToUint32, applied by [DataView.prototype.setUint32] to its value. *)
Definition ToUint32 (v : Z) : Z := v mod 2 ^ 32.

Definition Z_of_byte (b : byte) : Z := Z.of_N (Byte.to_N b).

Definition byte_of_Z (z : Z) : byte :=
  match Byte.of_N (Z.to_N (z mod 256)) with
  | Some b => b
  | None => x00
  end.

(** [new ArrayBuffer(n)]: [n] zero bytes. *)
Definition ArrayBuffer (n : Z) : list byte := replicate (Z.to_nat n) x00.

Definition byteLength (buf : list byte) : Z := Z.of_nat (length buf).

(** The four bytes [setUint32] stores, most significant first. *)
Definition be32 (v : Z) : list byte :=
  let u := ToUint32 v in
  [ byte_of_Z (Z.shiftr u 24); byte_of_Z (Z.shiftr u 16);
    byte_of_Z (Z.shiftr u 8); byte_of_Z u ].

Definition be32_value (bs : list byte) : Z :=
  fold_left (fun acc b => acc * 256 + Z_of_byte b) bs 0.

(** [new DataView(buf).setUint32(off, v)] (big-endian by default). *)
Definition setUint32 (buf : list byte) (off : nat) (v : Z) : list byte :=
  take off buf ++ be32 v ++ drop (off + 4) buf.

(** [new Uint8Array(buffer, byteOffset, length)]; [length = None] when the
    third argument is omitted.  [None] is the [RangeError] of ToIndex on a
    negative number or of a view that does not fit the buffer. *)
Definition Uint8Array (buffer : list byte) (byteOffset : Z) (len : option Z)
  : option (list byte) :=
  if byteOffset <? 0 then None
  else match len with
       | None =>
           if byteLength buffer <? byteOffset then None
           else Some (drop (Z.to_nat byteOffset) buffer)
       | Some l =>
           if l <? 0 then None
           else if byteLength buffer <? byteOffset + l then None
           else Some (take (Z.to_nat l) (drop (Z.to_nat byteOffset) buffer))
       end.

(** [target.set(source, offset)]: [RangeError] when the source does not fit. *)
Definition set (target source : list byte) (offset : Z) : option (list byte) :=
  if offset <? 0 then None
  else if byteLength target <? byteLength source + offset then None
  else Some (take (Z.to_nat offset) target ++ source
             ++ drop (Z.to_nat offset + length source) target).

(** A property key: an integer index or any other name. *)
Inductive PropertyKey :=
| IndexKey (i : Z)
| NameKey (s : string).

(** [obj + n] for a plain object [obj]: the object converts to the string
    "[object Object]" and [+] concatenates. *)
Definition object_plus (n : Z) : string := "[object Object]" +:+ pretty n.

(** Appending a number to a string. *)
Definition string_plus (s : string) (n : Z) : string := s +:+ pretty n.

(** [arr[k] = v] on a [Uint8Array].  An index in range stores the byte, an
    index out of range is ignored; a name that is not a canonical numeric
    string becomes an ordinary property of the array object and touches no
    element. *)
Definition put (arr : list byte) (k : PropertyKey) (v : Z) : list byte :=
  match k with
  | IndexKey i =>
      if (0 <=? i) && (i <? byteLength arr)
      then <[Z.to_nat i := byte_of_Z v]> arr else arr
  | NameKey _ => arr
  end.

End Js.

(** ** Constants of the module *)

Definition keyRingSize : Z := 8.
Definition ivLength : Z := 12.

(** [RTCEncodedVideoFrame.type], restricted to the two entries of the
    [unencryptedBytes] table. *)
Inductive FrameType := key | delta.

Definition unencryptedBytes (t : FrameType) : Z :=
  match t with
  | key => 10
  | delta => 3
  end.

(** ** Data model *)

Record RTCEncodedVideoFrame := {
  type : FrameType;
  timestamp : Z;
  synchronizationSource : Z;
  data : list byte
}.

Definition with_data (chunk : RTCEncodedVideoFrame) (newData : list byte)
  : RTCEncodedVideoFrame :=
  {| type := type chunk;
     timestamp := timestamp chunk;
     synchronizationSource := synchronizationSource chunk;
     data := newData |}.

(** [crypto.subtle] with AES-GCM parameters [{name, iv}]: a rejected promise
    is [None]. *)
Class SubtleCrypto := {
  CryptoKey : Type;
  encrypt : CryptoKey -> list byte -> list byte -> option (list byte);
  decrypt : CryptoKey -> list byte -> list byte -> option (list byte)
}.

(** Decryption inverts encryption under the same key and iv. *)
Class AesGcm (SC : SubtleCrypto) : Prop := {
  decrypt_encrypt : forall (k : CryptoKey) (iv pt ct : list byte),
    encrypt k iv pt = Some ct -> decrypt k iv ct = Some pt
}.

Inductive Logged :=
| Message (s : string)      (* logger.error('...') *)
| Rejection.                (* logger.error(e), e the reason of a rejection *)

Inductive Event `{SubtleCrypto} :=
| SubtleEncrypt (k : CryptoKey) (iv plainText : list byte)
| SubtleDecrypt (k : CryptoKey) (iv cipherText : list byte)
| Enqueue (chunk : RTCEncodedVideoFrame)
| LoggerError (m : Logged)
| RangeError.               (* an exception that leaves the transform *)

Record E2EEcontext `{SubtleCrypto} := {
  _options : string;
  _cryptoKeyRing : list (option CryptoKey);
  _currentKeyIndex : Z;
  _sendCounts : gmap Z Z
}.

Section Transform.
Context `{SC : SubtleCrypto}.

(** [constructor(options)] *)
Definition constructor (options : string) : E2EEcontext :=
  {| _options := options;
     _cryptoKeyRing := replicate (Z.to_nat keyRingSize) None;
     _currentKeyIndex := -1;
     _sendCounts := ∅ |}.

(** [this._cryptoKeyRing[i]] for a number [i] ([None] for [NaN] or
    [undefined]): a negative index, an index past the end and a hole all
    read [undefined]. *)
Definition ring_at (ring : list (option CryptoKey)) (i : option Z)
  : option CryptoKey :=
  match i with
  | Some i => if i <? 0 then None else mjoin (ring !! Z.to_nat i)
  | None => None
  end.

(** [setKey(value)]: the derived key is bound to a local and the body ends
    (the rest is a TODO).  [_deriveKey] is a parameter; [None] is a
    derivation that throws, which rejects the promise [setKey] returns. *)
Definition setKey (_deriveKey : string -> option CryptoKey) (value : string)
    (this : E2EEcontext) : E2EEcontext * bool :=
  match _deriveKey value with
  | Some _ => (this, true)
  | None => (this, false)
  end.

(** [this._currentKeyIndex % this._cryptoKeyRing.length] *)
Definition encode_keyIndex (this : E2EEcontext) : option Z :=
  Js.rem (_currentKeyIndex this) (Z.of_nat (length (_cryptoKeyRing this))).

(** The iv of [_encodeFunction]: ssrc, timestamp and the send count. *)
Definition encode_iv (chunk : RTCEncodedVideoFrame) (sendCount : Z) : list byte :=
  let iv := Js.ArrayBuffer ivLength in
  let iv := Js.setUint32 iv 0 (synchronizationSource chunk) in
  let iv := Js.setUint32 iv 4 (timestamp chunk) in
  Js.setUint32 iv 8 (default 0 (Js.rem sendCount 0xFFFF)).

(** The body of the fulfilment callback of [_encodeFunction]. *)
Definition encode_newData (chunk : RTCEncodedVideoFrame)
    (cipherText iv : list byte) (keyIndex : option Z) : option (list byte) :=
  let n := unencryptedBytes (type chunk) in
  let newUint8 :=
    Js.ArrayBuffer (n + Js.byteLength cipherText + Js.byteLength iv + 1) in
  first ← Js.Uint8Array (data chunk) 0 (Some n);
  newUint8 ← Js.set newUint8 first 0;
  newUint8 ← Js.set newUint8 cipherText n;
  newUint8 ← Js.set newUint8 iv (n + Js.byteLength cipherText);
  (* newUint8[unencryptedBytes + cipherText.byteLength + ivLength] = keyIndex:
     the left operand of the sum is the table object itself *)
  let k := Js.NameKey (Js.string_plus
             (Js.object_plus (Js.byteLength cipherText)) ivLength) in
  Some (Js.put newUint8 k (default 0 keyIndex)).

Definition bump_sendCounts (random : Z) (ssrc : Z) (counts : gmap Z Z)
  : Z * gmap Z Z :=
  let counts :=
    match counts !! ssrc with
    | Some _ => counts
    | None => <[ssrc := random]> counts
    end in
  let sendCount := default 0 (counts !! ssrc) in
  (sendCount, <[ssrc := sendCount + 1]> counts).

(** [_encodeFunction(chunk, controller)]; [random] is the value of
    [Math.floor(Math.random() * 0xFFFF)]. *)
Definition _encodeFunction (random : Z) (chunk : RTCEncodedVideoFrame)
    (this : E2EEcontext) : E2EEcontext * list Event :=
  let keyIndex := encode_keyIndex this in
  match ring_at (_cryptoKeyRing this) keyIndex with
  | Some k =>
      let '(sendCount, counts) :=
        bump_sendCounts random (synchronizationSource chunk) (_sendCounts this) in
      let iv := encode_iv chunk sendCount in
      let this' :=
        {| _options := _options this;
           _cryptoKeyRing := _cryptoKeyRing this;
           _currentKeyIndex := _currentKeyIndex this;
           _sendCounts := counts |} in
      match Js.Uint8Array (data chunk) (unencryptedBytes (type chunk)) None with
      | None => (this', [RangeError])
      | Some plainText =>
          match encrypt k iv plainText with
          | Some cipherText =>
              match encode_newData chunk cipherText iv keyIndex with
              | Some newData =>
                  (this', [SubtleEncrypt k iv plainText;
                           Enqueue (with_data chunk newData)])
              | None => (this', [SubtleEncrypt k iv plainText; RangeError])
              end
          | None =>
              (this', [SubtleEncrypt k iv plainText; LoggerError Rejection])
          end
      end
  | None =>
      (this, [LoggerError (Message "Could not encrypt frame as there is no key.")])
  end.

(** The body of the fulfilment callback of [_decodeFunction]. *)
Definition decode_newData (chunk : RTCEncodedVideoFrame)
    (chunkType : FrameType) (plainText : list byte) : option (list byte) :=
  let newUint8 := Js.ArrayBuffer (10 + Js.byteLength plainText) in
  first ← Js.Uint8Array (data chunk) 0 (Some (unencryptedBytes chunkType));
  newUint8 ← Js.set newUint8 first 0;
  Js.set newUint8 plainText (unencryptedBytes chunkType).

(** [(data[0] & 0x1) === 0 ? 'key' : 'delta'] *)
Definition decode_chunkType (d : list byte) : FrameType :=
  let b0 := match d !! 0%nat with Some b => Js.Z_of_byte b | None => 0 end in
  if Z.land b0 1 =? 0 then key else delta.

(** [data[chunk.data.byteLength - 1]]: [undefined] on an empty payload. *)
Definition decode_keyIndex (d : list byte) : option Z :=
  if Js.byteLength d <? 1 then None
  else Js.Z_of_byte <$> d !! Z.to_nat (Js.byteLength d - 1).

(** [_decodeFunction(chunk, controller)] *)
Definition _decodeFunction (chunk : RTCEncodedVideoFrame)
    (this : E2EEcontext) : E2EEcontext * list Event :=
  let d := data chunk in
  let byteLength := Js.byteLength d in
  let keyIndex := decode_keyIndex d in
  match ring_at (_cryptoKeyRing this) keyIndex with
  | Some k =>
      let chunkType := decode_chunkType d in
      match Js.Uint8Array d (byteLength - ivLength - 1) (Some ivLength) with
      | None => (this, [RangeError])
      | Some iv =>
          let cipherTextStart := unencryptedBytes chunkType in
          let cipherTextLength :=
            byteLength - (unencryptedBytes chunkType + ivLength + 1) in
          match Js.Uint8Array d cipherTextStart (Some cipherTextLength) with
          | None => (this, [RangeError])
          | Some cipherText =>
              match decrypt k iv cipherText with
              | Some plainText =>
                  match decode_newData chunk chunkType plainText with
                  | Some newData =>
                      (this, [SubtleDecrypt k iv cipherText;
                              Enqueue (with_data chunk newData)])
                  | None => (this, [SubtleDecrypt k iv cipherText; RangeError])
                  end
              | None =>
                  (this, [SubtleDecrypt k iv cipherText; LoggerError Rejection])
              end
          end
      end
  | None => (this, [Enqueue chunk])
  end.

(** The send count [_encodeFunction] reads for a frame. *)
Definition sendCount_for (random : Z) (chunk : RTCEncodedVideoFrame)
    (this : E2EEcontext) : Z :=
  default random (_sendCounts this !! synchronizationSource chunk).

(** The context [_encodeFunction] leaves when a key is active. *)
Definition counted (random : Z) (chunk : RTCEncodedVideoFrame)
    (this : E2EEcontext) : E2EEcontext :=
  {| _options := _options this;
     _cryptoKeyRing := _cryptoKeyRing this;
     _currentKeyIndex := _currentKeyIndex this;
     _sendCounts := <[synchronizationSource chunk :=
                        sendCount_for random chunk this + 1]> (_sendCounts this) |}.

(** The four outcomes of one call, as one case analysis. *)
Inductive encode_outcome (random : Z) (chunk : RTCEncodedVideoFrame)
    (this : E2EEcontext) : E2EEcontext * list Event -> Prop :=
| EncodeNoKey :
    ring_at (_cryptoKeyRing this) (encode_keyIndex this) = None ->
    encode_outcome random chunk this
      (this, [LoggerError (Message "Could not encrypt frame as there is no key.")])
| EncodeShort k :
    ring_at (_cryptoKeyRing this) (encode_keyIndex this) = Some k ->
    Js.byteLength (data chunk) < unencryptedBytes (type chunk) ->
    encode_outcome random chunk this (counted random chunk this, [RangeError])
| EncodeRejected k :
    ring_at (_cryptoKeyRing this) (encode_keyIndex this) = Some k ->
    unencryptedBytes (type chunk) <= Js.byteLength (data chunk) ->
    encrypt k (encode_iv chunk (sendCount_for random chunk this))
      (drop (Z.to_nat (unencryptedBytes (type chunk))) (data chunk)) = None ->
    encode_outcome random chunk this
      (counted random chunk this,
       [SubtleEncrypt k (encode_iv chunk (sendCount_for random chunk this))
          (drop (Z.to_nat (unencryptedBytes (type chunk))) (data chunk));
        LoggerError Rejection])
| EncodeEncrypted k ct :
    ring_at (_cryptoKeyRing this) (encode_keyIndex this) = Some k ->
    unencryptedBytes (type chunk) <= Js.byteLength (data chunk) ->
    encrypt k (encode_iv chunk (sendCount_for random chunk this))
      (drop (Z.to_nat (unencryptedBytes (type chunk))) (data chunk)) = Some ct ->
    encode_outcome random chunk this
      (counted random chunk this,
       [SubtleEncrypt k (encode_iv chunk (sendCount_for random chunk this))
          (drop (Z.to_nat (unencryptedBytes (type chunk))) (data chunk));
        Enqueue (with_data chunk
          (take (Z.to_nat (unencryptedBytes (type chunk))) (data chunk)
           ++ ct ++ encode_iv chunk (sendCount_for random chunk this) ++ [x00]))]).

(** The iv and the ciphertext [_decodeFunction] reads from a payload. *)
Definition decode_iv (d : list byte) : list byte :=
  take (Z.to_nat ivLength) (drop (Z.to_nat (Js.byteLength d - ivLength - 1)) d).

Definition decode_cipherText (d : list byte) : list byte :=
  let n := unencryptedBytes (decode_chunkType d) in
  take (Z.to_nat (Js.byteLength d - (n + ivLength + 1))) (drop (Z.to_nat n) d).

(** The four outcomes of one call of [_decodeFunction]. *)
Inductive decode_outcome (chunk : RTCEncodedVideoFrame) (this : E2EEcontext)
  : E2EEcontext * list Event -> Prop :=
| DecodeNoKey :
    ring_at (_cryptoKeyRing this) (decode_keyIndex (data chunk)) = None ->
    decode_outcome chunk this (this, [Enqueue chunk])
| DecodeShort k :
    ring_at (_cryptoKeyRing this) (decode_keyIndex (data chunk)) = Some k ->
    Js.byteLength (data chunk)
      < unencryptedBytes (decode_chunkType (data chunk)) + ivLength + 1 ->
    decode_outcome chunk this (this, [RangeError])
| DecodeRejected k :
    ring_at (_cryptoKeyRing this) (decode_keyIndex (data chunk)) = Some k ->
    unencryptedBytes (decode_chunkType (data chunk)) + ivLength + 1
      <= Js.byteLength (data chunk) ->
    decrypt k (decode_iv (data chunk)) (decode_cipherText (data chunk)) = None ->
    decode_outcome chunk this
      (this, [SubtleDecrypt k (decode_iv (data chunk)) (decode_cipherText (data chunk));
              LoggerError Rejection])
| DecodeDecrypted k pt :
    ring_at (_cryptoKeyRing this) (decode_keyIndex (data chunk)) = Some k ->
    unencryptedBytes (decode_chunkType (data chunk)) + ivLength + 1
      <= Js.byteLength (data chunk) ->
    decrypt k (decode_iv (data chunk)) (decode_cipherText (data chunk)) = Some pt ->
    decode_outcome chunk this
      (this, [SubtleDecrypt k (decode_iv (data chunk)) (decode_cipherText (data chunk));
              Enqueue (with_data chunk
                (take (Z.to_nat (unencryptedBytes (decode_chunkType (data chunk))))
                   (data chunk)
                 ++ pt
                 ++ replicate
                      (Z.to_nat (10 - unencryptedBytes (decode_chunkType (data chunk))))
                      x00))]).

(** Frames processed one after the other, each with its random draw: one
    call of [_encodeFunction] per frame, each on the context the previous
    call left, whatever that call did with its frame. *)
Fixpoint encodeAll (frames : list (Z * RTCEncodedVideoFrame))
    (this : E2EEcontext) : E2EEcontext * list Event :=
  match frames with
  | [] => (this, [])
  | (random, chunk) :: rest =>
      let '(this', evs) := _encodeFunction random chunk this in
      let '(this'', evs') := encodeAll rest this' in
      (this'', evs ++ evs')
  end.

(** Frames decoded one after the other, one call of [_decodeFunction] per
    frame. *)
Fixpoint decodeAll (frames : list RTCEncodedVideoFrame)
    (this : E2EEcontext) : E2EEcontext * list Event :=
  match frames with
  | [] => (this, [])
  | chunk :: rest =>
      let '(this', evs) := _decodeFunction chunk this in
      let '(this'', evs') := decodeAll rest this' in
      (this'', evs ++ evs')
  end.

(** *** Observations on a trace *)

(** The frames handed to [controller.enqueue]. *)
Definition enqueued (evs : list Event) : list RTCEncodedVideoFrame :=
  omap (fun e => match e with Enqueue c => Some c | _ => None end) evs.

(** The reports made through [logger.error]. *)
Definition logged (evs : list Event) : list Logged :=
  omap (fun e => match e with LoggerError m => Some m | _ => None end) evs.

(** The ivs handed to [crypto.subtle.encrypt]. *)
Definition nonces (evs : list Event) : list (list byte) :=
  omap (fun e => match e with SubtleEncrypt _ iv _ => Some iv | _ => None end) evs.

(** Whether an exception left the transform. *)
Definition raises (evs : list Event) : bool :=
  existsb (fun e => match e with RangeError => true | _ => false end) evs.


(** The 12 bytes before the key-index byte of a payload in wire layout. *)
Definition wire_nonce (d : list byte) : list byte :=
  take 12 (drop (length d - 13) d).

End Transform.

(** ** A small executable instance of [SubtleCrypto]

    Keys are bytes; the cipher adds the key to every byte and appends a
    16-byte tag computed from the key, the iv and the plaintext.  It is used
    to run the transforms on concrete frames. *)

Module Toy.

Definition checksum (bs : list byte) : Z :=
  fold_right (fun b acc => Js.Z_of_byte b + acc) 0 bs.

Definition tag (k : byte) (iv pt : list byte) : list byte :=
  replicate 16 (Js.byte_of_Z (Js.Z_of_byte k + checksum iv + checksum pt)).

Definition shift (k : Z) (b : byte) : byte := Js.byte_of_Z (Js.Z_of_byte b + k).

Definition encrypt (k : byte) (iv pt : list byte) : option (list byte) :=
  Some (map (shift (Js.Z_of_byte k)) pt ++ tag k iv pt).

Definition bytes_eqb (a b : list byte) : bool :=
  bool_decide (map Js.Z_of_byte a = map Js.Z_of_byte b).

Definition decrypt (k : byte) (iv ct : list byte) : option (list byte) :=
  let n := (length ct - 16)%nat in
  if (length ct <? 16)%nat then None
  else
    let pt := map (shift (- Js.Z_of_byte k)) (take n ct) in
    if bytes_eqb (drop n ct) (tag k iv pt) then Some pt else None.

#[global] Instance crypto : SubtleCrypto := Build_SubtleCrypto byte encrypt decrypt.

Definition bytes (l : list Z) : list byte := map Js.byte_of_Z l.

(** A context whose ring holds the key 7 at slot [i], which is the current
    index. *)
Definition context (i : Z) : E2EEcontext :=
  {| _options := "salt";
     _cryptoKeyRing := <[Z.to_nat i := Some x07]> (replicate 8 None);
     _currentKeyIndex := i;
     _sendCounts := ∅ |}.

Definition frame (t : FrameType) (payload : list Z) : RTCEncodedVideoFrame :=
  {| type := t; timestamp := 1000; synchronizationSource := 42;
     data := bytes payload |}.

(** The frame the encoder enqueues for [chunk] (or [chunk] itself when it
    enqueues none). *)
Definition sent (random : Z) (chunk : RTCEncodedVideoFrame) (this : E2EEcontext)
  : RTCEncodedVideoFrame :=
  default chunk (head (enqueued (_encodeFunction random chunk this).2)).

(** [n] frames of one source, all with the same timestamp and random draw. *)
Definition burst (n : Z) (chunk : RTCEncodedVideoFrame)
  : list (Z * RTCEncodedVideoFrame) :=
  replicate (Z.to_nat n) (7, chunk).

(** A payload in wire layout made by hand: ten prefix bytes, the bytes 10
    and 11 encrypted under key 7, the iv and the index byte [b]. *)
Definition iv0 : list byte := bytes [0; 0; 0; 42; 0; 0; 3; 232; 0; 0; 0; 7].

Definition cipherText0 : list byte := default [] (encrypt x07 iv0 (bytes [10; 11])).

Definition wire_slot (b : byte) : RTCEncodedVideoFrame :=
  {| type := key; timestamp := 1000; synchronizationSource := 42;
     data := bytes [0; 1; 2; 3; 4; 5; 6; 7; 8; 9] ++ cipherText0 ++ iv0 ++ [b] |}.

(** Payloads of 12 bytes: the first one starts with an even byte, as a VP8
    key frame does, the second one with an odd byte. *)
Definition payload_even : list Z := [0; 1; 2; 3; 4; 5; 6; 7; 8; 9; 10; 11].
Definition payload_odd : list Z := [1; 1; 2; 3; 4; 5; 6; 7; 8; 9; 10; 11].

End Toy.

(** ** Bytes and 32-bit big-endian fields *)

Section Bytes.

Lemma Z_of_byte_range (b : byte) : 0 <= Js.Z_of_byte b < 256.
Proof.
  unfold Js.Z_of_byte. pose proof (Byte.to_N_bounded b). lia.
Qed.

Lemma byte_of_Z_of_byte (b : byte) : Js.byte_of_Z (Js.Z_of_byte b) = b.
Proof.
  unfold Js.byte_of_Z. pose proof (Z_of_byte_range b) as Hb.
  rewrite Z.mod_small by lia. unfold Js.Z_of_byte.
  rewrite N2Z.id, Byte.of_to_N. reflexivity.
Qed.

Lemma Z_of_byte_of_Z (z : Z) : Js.Z_of_byte (Js.byte_of_Z z) = z mod 256.
Proof.
  unfold Js.byte_of_Z, Js.Z_of_byte.
  pose proof (Z.mod_pos_bound z 256 ltac:(lia)) as Hm.
  destruct (Byte.of_N (Z.to_N (z mod 256))) as [b|] eqn:E.
  - apply Byte.to_of_N in E. rewrite E. lia.
  - apply Byte.of_N_None_iff in E. lia.
Qed.

Lemma byte_of_Z_mod (z : Z) : Js.byte_of_Z (z mod 256) = Js.byte_of_Z z.
Proof. unfold Js.byte_of_Z. now rewrite Z.mod_mod by lia. Qed.

Lemma be32_value_be32 (v : Z) : Js.be32_value (Js.be32 v) = v mod 2 ^ 32.
Proof.
  unfold Js.be32, Js.be32_value, Js.ToUint32. cbn [fold_left].
  rewrite !Z_of_byte_of_Z, !Z.shiftr_div_pow2 by lia.
  set (u := v mod 2 ^ 32).
  assert (0 <= u < 2 ^ 32) by (apply Z.mod_pos_bound; lia).
  change (2 ^ 24) with 16777216. change (2 ^ 16) with 65536.
  change (2 ^ 8) with 256.
  pose proof (Z.div_mod u 256 ltac:(lia)).
  pose proof (Z.div_mod (u / 256) 256 ltac:(lia)).
  pose proof (Z.div_mod (u / 256 / 256) 256 ltac:(lia)).
  assert (u / 65536 = u / 256 / 256) as ->
    by (rewrite Z.div_div by lia; reflexivity).
  assert (u / 16777216 = u / 256 / 256 / 256) as ->
    by (rewrite !Z.div_div by lia; reflexivity).
  assert (0 <= u / 256 / 256 / 256 < 256).
  { split; [repeat apply Z.div_pos; lia|].
    repeat apply Z.div_lt_upper_bound; lia. }
  rewrite (Z.mod_small (u / 256 / 256 / 256)) by lia. lia.
Qed.

End Bytes.

(** ** The executable cipher inverts itself *)

Section ToyLaws.

Lemma toy_shift_back (k : Z) (b : byte) : Toy.shift (- k) (Toy.shift k b) = b.
Proof.
  unfold Toy.shift. rewrite Z_of_byte_of_Z, <- byte_of_Z_mod.
  replace (((Js.Z_of_byte b + k) mod 256 + - k) mod 256)
    with (Js.Z_of_byte b mod 256).
  - now rewrite byte_of_Z_mod, byte_of_Z_of_byte.
  - rewrite Z.add_opp_r, Zminus_mod_idemp_l. f_equal. lia.
Qed.

Lemma toy_decrypt_encrypt (k : byte) (iv pt ct : list byte) :
  Toy.encrypt k iv pt = Some ct -> Toy.decrypt k iv ct = Some pt.
Proof.
  unfold Toy.encrypt, Toy.decrypt. intros [= <-].
  assert (Htag : forall p, length (Toy.tag k iv p) = 16%nat)
    by (intros p; apply length_replicate).
  rewrite length_app, length_map, !Htag.
  destruct (Nat.ltb_spec (length pt + 16) 16); [lia|].
  replace (length pt + 16 - 16)%nat
    with (length (map (Toy.shift (Js.Z_of_byte k)) pt))
    by (rewrite length_map; lia).
  rewrite take_app_length, drop_app_length, map_map.
  assert (map (fun b => Toy.shift (- Js.Z_of_byte k) (Toy.shift (Js.Z_of_byte k) b)) pt
          = pt) as ->.
  { clear. induction pt as [|b pt IH]; [reflexivity|].
    cbn [map]. now rewrite toy_shift_back, IH. }
  unfold Toy.bytes_eqb. now rewrite bool_decide_eq_true_2.
Qed.

#[global] Instance toy_aes_gcm : AesGcm Toy.crypto.
Proof. constructor. exact toy_decrypt_encrypt. Qed.

End ToyLaws.

(** ** Typed-array views and copies *)

Section TypedArrays.

Lemma Uint8Array_prefix (buf : list byte) (n : Z) :
  0 <= n <= Js.byteLength buf ->
  Js.Uint8Array buf 0 (Some n) = Some (take (Z.to_nat n) buf).
Proof.
  intros Hn. unfold Js.Uint8Array. cbn [Z.ltb Z.compare Z.to_nat drop].
  destruct (Z.ltb_spec n 0); [lia|].
  destruct (Z.ltb_spec (Js.byteLength buf) (0 + n)); [lia|]. reflexivity.
Qed.

Lemma Uint8Array_suffix (buf : list byte) (n : Z) :
  0 <= n <= Js.byteLength buf ->
  Js.Uint8Array buf n None = Some (drop (Z.to_nat n) buf).
Proof.
  intros Hn. unfold Js.Uint8Array.
  destruct (Z.ltb_spec n 0); [lia|].
  destruct (Z.ltb_spec (Js.byteLength buf) n); [lia|]. reflexivity.
Qed.

Lemma Uint8Array_suffix_RangeError (buf : list byte) (n : Z) :
  Js.byteLength buf < n -> Js.Uint8Array buf n None = None.
Proof.
  intros Hn. unfold Js.Uint8Array.
  destruct (Z.ltb_spec n 0); [reflexivity|].
  destruct (Z.ltb_spec (Js.byteLength buf) n); [reflexivity|lia].
Qed.

Lemma Uint8Array_slice (buf : list byte) (off l : Z) :
  0 <= off -> 0 <= l -> off + l <= Js.byteLength buf ->
  Js.Uint8Array buf off (Some l) = Some (take (Z.to_nat l) (drop (Z.to_nat off) buf)).
Proof.
  intros Ho Hl Hfit. unfold Js.Uint8Array.
  destruct (Z.ltb_spec off 0); [lia|].
  destruct (Z.ltb_spec l 0); [lia|].
  destruct (Z.ltb_spec (Js.byteLength buf) (off + l)); [lia|]. reflexivity.
Qed.

Lemma Uint8Array_slice_RangeError (buf : list byte) (off l : Z) :
  off < 0 \/ l < 0 \/ Js.byteLength buf < off + l ->
  Js.Uint8Array buf off (Some l) = None.
Proof.
  intros H. unfold Js.Uint8Array.
  destruct (Z.ltb_spec off 0); [reflexivity|].
  destruct (Z.ltb_spec l 0); [reflexivity|].
  destruct (Z.ltb_spec (Js.byteLength buf) (off + l)); [reflexivity|lia].
Qed.

(** Copying into the still-zero tail of a fresh buffer. *)
Lemma set_fill (pre src : list byte) (m : nat) (off : Z) :
  off = Js.byteLength pre ->
  Js.set (pre ++ replicate (length src + m) x00) src off
  = Some (pre ++ src ++ replicate m x00).
Proof.
  intros ->. unfold Js.set, Js.byteLength.
  destruct (Z.ltb_spec (Z.of_nat (length pre)) 0); [lia|].
  rewrite length_app, length_replicate.
  destruct (Z.ltb_spec (Z.of_nat (length pre + (length src + m)))
              (Z.of_nat (length src) + Z.of_nat (length pre))); [lia|].
  rewrite Nat2Z.id, take_app_length, drop_app_add, drop_replicate_add.
  reflexivity.
Qed.

Lemma set_fill_start (src : list byte) (m : nat) :
  Js.set (replicate (length src + m) x00) src 0 = Some (src ++ replicate m x00).
Proof. exact (set_fill [] src m 0 eq_refl). Qed.

Lemma ArrayBuffer_replicate (n : nat) :
  Js.ArrayBuffer (Z.of_nat n) = replicate n x00.
Proof. unfold Js.ArrayBuffer. now rewrite Nat2Z.id. Qed.

End TypedArrays.

(** ** The iv and the buffers the callbacks assemble *)

Section Assembly.
Context `{SC : SubtleCrypto}.

Lemma encode_iv_eq (chunk : RTCEncodedVideoFrame) (sendCount : Z) :
  encode_iv chunk sendCount
  = Js.be32 (synchronizationSource chunk) ++ Js.be32 (timestamp chunk)
    ++ Js.be32 (Z.rem sendCount 0xFFFF).
Proof. reflexivity. Qed.

Lemma encode_iv_length (chunk : RTCEncodedVideoFrame) (sendCount : Z) :
  length (encode_iv chunk sendCount) = 12%nat.
Proof. reflexivity. Qed.

Lemma unencryptedBytes_pos (t : FrameType) : 0 < unencryptedBytes t <= 10.
Proof. destruct t; cbn; lia. Qed.

(** The buffer [_encodeFunction] enqueues: prefix, ciphertext, iv and one
    byte that is left at zero. *)
Lemma encode_newData_eq (chunk : RTCEncodedVideoFrame) (ct iv : list byte)
    (keyIndex : option Z) :
  unencryptedBytes (type chunk) <= Js.byteLength (data chunk) ->
  encode_newData chunk ct iv keyIndex
  = Some (take (Z.to_nat (unencryptedBytes (type chunk))) (data chunk)
          ++ ct ++ iv ++ [x00]).
Proof.
  intros Hfit. unfold encode_newData.
  pose proof (unencryptedBytes_pos (type chunk)) as Hp.
  set (n := unencryptedBytes (type chunk)) in *.
  rewrite Uint8Array_prefix by lia. cbn [mbind option_bind].
  set (first := take (Z.to_nat n) (data chunk)).
  assert (Hlen : length first = Z.to_nat n).
  { unfold first. rewrite length_take. unfold Js.byteLength in Hfit. lia. }
  replace (n + Js.byteLength ct + Js.byteLength iv + 1)
    with (Z.of_nat (length first + (length ct + (length iv + 1))))
    by (unfold Js.byteLength; lia).
  rewrite ArrayBuffer_replicate.
  rewrite set_fill_start. cbn [mbind option_bind].
  rewrite (set_fill first ct) by (unfold Js.byteLength; lia).
  cbn [mbind option_bind].
  rewrite (app_assoc first ct).
  rewrite (set_fill (first ++ ct) iv)
    by (unfold Js.byteLength; rewrite length_app; lia).
  cbn [mbind option_bind Js.put]. now rewrite <- app_assoc.
Qed.

(** The buffer [_decodeFunction] enqueues: it is allocated with a prefix of
    10 bytes whatever the frame type. *)
Lemma decode_newData_eq (chunk : RTCEncodedVideoFrame) (t : FrameType)
    (pt : list byte) :
  unencryptedBytes t <= Js.byteLength (data chunk) ->
  decode_newData chunk t pt
  = Some (take (Z.to_nat (unencryptedBytes t)) (data chunk) ++ pt
          ++ replicate (Z.to_nat (10 - unencryptedBytes t)) x00).
Proof.
  intros Hfit. unfold decode_newData.
  pose proof (unencryptedBytes_pos t) as Hp.
  set (n := unencryptedBytes t) in *.
  rewrite Uint8Array_prefix by lia. cbn [mbind option_bind].
  set (first := take (Z.to_nat n) (data chunk)).
  assert (Hlen : length first = Z.to_nat n).
  { unfold first. rewrite length_take. unfold Js.byteLength in Hfit. lia. }
  replace (10 + Js.byteLength pt)
    with (Z.of_nat (length first + (length pt + Z.to_nat (10 - n))))
    by (unfold Js.byteLength; lia).
  rewrite ArrayBuffer_replicate.
  rewrite set_fill_start. cbn [mbind option_bind].
  rewrite (set_fill first pt) by (unfold Js.byteLength; lia).
  reflexivity.
Qed.

End Assembly.

(** ** The encoder transform, case by case *)

Section Encoder.
Context `{SC : SubtleCrypto}.

Lemma bump_sendCounts_eq (random ssrc : Z) (counts : gmap Z Z) :
  bump_sendCounts random ssrc counts
  = (default random (counts !! ssrc),
     <[ssrc := default random (counts !! ssrc) + 1]> counts).
Proof.
  unfold bump_sendCounts. destruct (counts !! ssrc) as [c|] eqn:E; cbn.
  - now rewrite E.
  - now rewrite lookup_insert_eq, insert_insert_eq.
Qed.

Lemma encode_no_key (random : Z) (chunk : RTCEncodedVideoFrame) (this : E2EEcontext) :
  ring_at (_cryptoKeyRing this) (encode_keyIndex this) = None ->
  _encodeFunction random chunk this
  = (this, [LoggerError (Message "Could not encrypt frame as there is no key.")]).
Proof. intros H. unfold _encodeFunction. now rewrite H. Qed.

Lemma encode_short (random : Z) (chunk : RTCEncodedVideoFrame)
    (this : E2EEcontext) (k : CryptoKey) :
  ring_at (_cryptoKeyRing this) (encode_keyIndex this) = Some k ->
  Js.byteLength (data chunk) < unencryptedBytes (type chunk) ->
  _encodeFunction random chunk this = (counted random chunk this, [RangeError]).
Proof.
  intros Hk Hshort. unfold _encodeFunction. rewrite Hk, bump_sendCounts_eq.
  now rewrite Uint8Array_suffix_RangeError.
Qed.

Lemma encode_rejected (random : Z) (chunk : RTCEncodedVideoFrame)
    (this : E2EEcontext) (k : CryptoKey) :
  let iv := encode_iv chunk (sendCount_for random chunk this) in
  let pt := drop (Z.to_nat (unencryptedBytes (type chunk))) (data chunk) in
  ring_at (_cryptoKeyRing this) (encode_keyIndex this) = Some k ->
  unencryptedBytes (type chunk) <= Js.byteLength (data chunk) ->
  encrypt k iv pt = None ->
  _encodeFunction random chunk this
  = (counted random chunk this, [SubtleEncrypt k iv pt; LoggerError Rejection]).
Proof.
  intros iv pt Hk Hfit Henc. unfold _encodeFunction.
  pose proof (unencryptedBytes_pos (type chunk)).
  rewrite Hk, bump_sendCounts_eq, Uint8Array_suffix by lia.
  fold (sendCount_for random chunk this). fold iv pt. now rewrite Henc.
Qed.

Lemma encode_encrypted (random : Z) (chunk : RTCEncodedVideoFrame)
    (this : E2EEcontext) (k : CryptoKey) (ct : list byte) :
  let n := Z.to_nat (unencryptedBytes (type chunk)) in
  let iv := encode_iv chunk (sendCount_for random chunk this) in
  let pt := drop n (data chunk) in
  ring_at (_cryptoKeyRing this) (encode_keyIndex this) = Some k ->
  unencryptedBytes (type chunk) <= Js.byteLength (data chunk) ->
  encrypt k iv pt = Some ct ->
  _encodeFunction random chunk this
  = (counted random chunk this,
     [SubtleEncrypt k iv pt;
      Enqueue (with_data chunk (take n (data chunk) ++ ct ++ iv ++ [x00]))]).
Proof.
  intros n iv pt Hk Hfit Henc. unfold _encodeFunction.
  pose proof (unencryptedBytes_pos (type chunk)).
  rewrite Hk, bump_sendCounts_eq, Uint8Array_suffix by lia.
  fold (sendCount_for random chunk this). fold n iv pt. rewrite Henc.
  now rewrite encode_newData_eq.
Qed.

Lemma encode_cases (random : Z) (chunk : RTCEncodedVideoFrame) (this : E2EEcontext) :
  encode_outcome random chunk this (_encodeFunction random chunk this).
Proof.
  destruct (ring_at (_cryptoKeyRing this) (encode_keyIndex this)) as [k|] eqn:Hk.
  - destruct (Z.lt_ge_cases (Js.byteLength (data chunk))
                (unencryptedBytes (type chunk))) as [Hs|Hfit].
    + rewrite (encode_short _ _ _ k) by assumption. now apply (EncodeShort _ _ _ k).
    + destruct (encrypt k (encode_iv chunk (sendCount_for random chunk this))
                  (drop (Z.to_nat (unencryptedBytes (type chunk))) (data chunk)))
        as [ct|] eqn:Henc.
      * rewrite (encode_encrypted _ _ _ k ct) by assumption.
        now apply EncodeEncrypted.
      * rewrite (encode_rejected _ _ _ k) by assumption.
        now apply EncodeRejected.
  - rewrite encode_no_key by assumption. now apply EncodeNoKey.
Qed.

End Encoder.

(** ** The decoder transform, case by case *)

Section Decoder.
Context `{SC : SubtleCrypto}.

Lemma decode_no_key (chunk : RTCEncodedVideoFrame) (this : E2EEcontext) :
  ring_at (_cryptoKeyRing this) (decode_keyIndex (data chunk)) = None ->
  _decodeFunction chunk this = (this, [Enqueue chunk]).
Proof. intros H. unfold _decodeFunction. now rewrite H. Qed.

Lemma decode_short (chunk : RTCEncodedVideoFrame) (this : E2EEcontext)
    (k : CryptoKey) :
  ring_at (_cryptoKeyRing this) (decode_keyIndex (data chunk)) = Some k ->
  Js.byteLength (data chunk)
    < unencryptedBytes (decode_chunkType (data chunk)) + ivLength + 1 ->
  _decodeFunction chunk this = (this, [RangeError]).
Proof.
  intros Hk Hshort. unfold _decodeFunction. rewrite Hk.
  pose proof (unencryptedBytes_pos (decode_chunkType (data chunk))) as Hp.
  unfold ivLength in *.
  destruct (Z.lt_ge_cases (Js.byteLength (data chunk)) 13) as [H13|H13].
  - rewrite Uint8Array_slice_RangeError by lia. reflexivity.
  - rewrite Uint8Array_slice by lia.
    rewrite Uint8Array_slice_RangeError by lia. reflexivity.
Qed.

Lemma decode_views (d : list byte) :
  unencryptedBytes (decode_chunkType d) + ivLength + 1 <= Js.byteLength d ->
  Js.Uint8Array d (Js.byteLength d - ivLength - 1) (Some ivLength)
    = Some (decode_iv d)
  /\ Js.Uint8Array d (unencryptedBytes (decode_chunkType d))
       (Some (Js.byteLength d - (unencryptedBytes (decode_chunkType d) + ivLength + 1)))
     = Some (decode_cipherText d).
Proof.
  intros Hfit. pose proof (unencryptedBytes_pos (decode_chunkType d)) as Hp.
  unfold ivLength in *. split; rewrite Uint8Array_slice by lia; reflexivity.
Qed.

Lemma decode_rejected (chunk : RTCEncodedVideoFrame) (this : E2EEcontext)
    (k : CryptoKey) :
  let d := data chunk in
  ring_at (_cryptoKeyRing this) (decode_keyIndex d) = Some k ->
  unencryptedBytes (decode_chunkType d) + ivLength + 1 <= Js.byteLength d ->
  decrypt k (decode_iv d) (decode_cipherText d) = None ->
  _decodeFunction chunk this
  = (this, [SubtleDecrypt k (decode_iv d) (decode_cipherText d);
            LoggerError Rejection]).
Proof.
  intros d Hk Hfit Hdec. unfold _decodeFunction. fold d. rewrite Hk.
  destruct (decode_views d Hfit) as [-> ->]. now rewrite Hdec.
Qed.

Lemma decode_decrypted (chunk : RTCEncodedVideoFrame) (this : E2EEcontext)
    (k : CryptoKey) (pt : list byte) :
  let d := data chunk in
  let n := unencryptedBytes (decode_chunkType d) in
  ring_at (_cryptoKeyRing this) (decode_keyIndex d) = Some k ->
  n + ivLength + 1 <= Js.byteLength d ->
  decrypt k (decode_iv d) (decode_cipherText d) = Some pt ->
  _decodeFunction chunk this
  = (this, [SubtleDecrypt k (decode_iv d) (decode_cipherText d);
            Enqueue (with_data chunk
              (take (Z.to_nat n) d ++ pt ++ replicate (Z.to_nat (10 - n)) x00))]).
Proof.
  intros d n Hk Hfit Hdec. unfold _decodeFunction. fold d. rewrite Hk.
  destruct (decode_views d Hfit) as [-> ->]. rewrite Hdec.
  unfold ivLength in Hfit. fold n.
  now rewrite decode_newData_eq by (fold d; lia).
Qed.

Lemma decode_cases (chunk : RTCEncodedVideoFrame) (this : E2EEcontext) :
  decode_outcome chunk this (_decodeFunction chunk this).
Proof.
  destruct (ring_at (_cryptoKeyRing this) (decode_keyIndex (data chunk)))
    as [k|] eqn:Hk.
  - destruct (Z.lt_ge_cases (Js.byteLength (data chunk))
                (unencryptedBytes (decode_chunkType (data chunk)) + ivLength + 1))
      as [Hs|Hfit].
    + rewrite (decode_short _ _ k) by assumption. now apply (DecodeShort _ _ k).
    + destruct (decrypt k (decode_iv (data chunk)) (decode_cipherText (data chunk)))
        as [pt|] eqn:Hdec.
      * rewrite (decode_decrypted _ _ k pt) by assumption.
        now apply DecodeDecrypted.
      * rewrite (decode_rejected _ _ k) by assumption.
        now apply DecodeRejected.
  - rewrite decode_no_key by assumption. now apply DecodeNoKey.
Qed.

End Decoder.

(** ** What the encoder enqueues *)

Section EncoderOutput.
Context `{SC : SubtleCrypto}.

(** Every frame the encoder enqueues comes from the fulfilment callback. *)
Lemma encode_wire_layout (random : Z) (chunk wire : RTCEncodedVideoFrame)
    (this : E2EEcontext) :
  wire ∈ enqueued (_encodeFunction random chunk this).2 ->
  exists k ct,
    ring_at (_cryptoKeyRing this) (encode_keyIndex this) = Some k
    /\ unencryptedBytes (type chunk) <= Js.byteLength (data chunk)
    /\ encrypt k (encode_iv chunk (sendCount_for random chunk this))
         (drop (Z.to_nat (unencryptedBytes (type chunk))) (data chunk)) = Some ct
    /\ _encodeFunction random chunk this
       = (counted random chunk this,
          [SubtleEncrypt k (encode_iv chunk (sendCount_for random chunk this))
             (drop (Z.to_nat (unencryptedBytes (type chunk))) (data chunk));
           Enqueue wire])
    /\ wire = with_data chunk
         (take (Z.to_nat (unencryptedBytes (type chunk))) (data chunk)
          ++ ct ++ encode_iv chunk (sendCount_for random chunk this) ++ [x00]).
Proof.
  intros Hin. destruct (encode_cases random chunk this) as [Hk|k Hk Hs|k Hk Hf He|k ct Hk Hf He];
    cbn in Hin; try (apply elem_of_nil in Hin; contradiction).
  apply list_elem_of_singleton in Hin. subst wire.
  exists k, ct. repeat split; try assumption.
Qed.

(** With a key active the context after the call is [counted], whatever
    happens to the frame. *)
Lemma encode_context_with_key (random : Z) (chunk : RTCEncodedVideoFrame)
    (this : E2EEcontext) (k : CryptoKey) :
  ring_at (_cryptoKeyRing this) (encode_keyIndex this) = Some k ->
  (_encodeFunction random chunk this).1 = counted random chunk this.
Proof.
  intros Hk.
  destruct (encode_cases random chunk this) as [Hk'|k' Hk' Hs|k' Hk' Hf He|k' ct Hk' Hf He];
    [congruence|reflexivity..].
Qed.

Lemma prefix_length (chunk : RTCEncodedVideoFrame) :
  unencryptedBytes (type chunk) <= Js.byteLength (data chunk) ->
  length (take (Z.to_nat (unencryptedBytes (type chunk))) (data chunk))
  = Z.to_nat (unencryptedBytes (type chunk)).
Proof.
  intros Hfit. rewrite length_take. unfold Js.byteLength in Hfit. lia.
Qed.

(** C2.  What the encoder emits: the prefix bytes verbatim, the ciphertext,
    the 12-byte iv and one final byte, [P + C + 13] bytes in all.  The final
    byte is zero whatever the key index: the assignment that should store
    [keyIndex] uses a property name that is not an index. *)
Theorem encoded_frame_layout (random : Z) (chunk wire : RTCEncodedVideoFrame)
    (this : E2EEcontext) :
  wire ∈ enqueued (_encodeFunction random chunk this).2 ->
  let n := Z.to_nat (unencryptedBytes (type chunk)) in
  let iv := encode_iv chunk (sendCount_for random chunk this) in
  exists ct,
    data wire = take n (data chunk) ++ ct ++ iv ++ [x00]
    /\ length (take n (data chunk)) = n
    /\ length iv = 12%nat
    /\ Js.byteLength (data wire)
       = unencryptedBytes (type chunk) + Js.byteLength ct + 13
    /\ last (data wire) = Some x00.
Proof.
  intros Hin n iv.
  destruct (encode_wire_layout _ _ _ _ Hin) as (k & ct & Hk & Hfit & Henc & _ & ->).
  exists ct. fold n iv. cbn [data with_data].
  pose proof (prefix_length chunk Hfit) as Hn. fold n in Hn.
  pose proof (unencryptedBytes_pos (type chunk)).
  repeat split.
  - exact Hn.
  - unfold Js.byteLength. rewrite !length_app, Hn.
    change (length iv) with 12%nat. cbn [length]. lia.
  - rewrite !app_assoc. apply last_snoc.
Qed.

(** C8.  The table maps [key] to 10 and [delta] to 3, and the first
    [unencryptedBytes[type]] bytes of every frame the encoder enqueues are the
    first bytes of its input. *)
Theorem prefix_preserved :
  unencryptedBytes key = 10 /\ unencryptedBytes delta = 3
  /\ forall (random : Z) (chunk wire : RTCEncodedVideoFrame) (this : E2EEcontext),
      wire ∈ enqueued (_encodeFunction random chunk this).2 ->
      let n := Z.to_nat (unencryptedBytes (type chunk)) in
      take n (data wire) = take n (data chunk)
      /\ length (take n (data chunk)) = n
      /\ type wire = type chunk.
Proof.
  split; [reflexivity|]. split; [reflexivity|].
  intros random chunk wire this Hin n.
  destruct (encode_wire_layout _ _ _ _ Hin) as (k & ct & Hk & Hfit & Henc & _ & ->).
  pose proof (prefix_length chunk Hfit) as Hn. fold n in Hn.
  cbn [data with_data type]. fold n. repeat split; [|exact Hn].
  rewrite take_app_le by lia. rewrite take_take. f_equal. lia.
Qed.

(** C5.  With no key at the current index the encoder enqueues nothing,
    reports the failure through the logger and leaves the context as it was. *)
Theorem encoder_without_key_enqueues_nothing (random : Z)
    (chunk : RTCEncodedVideoFrame) (this : E2EEcontext) :
  ring_at (_cryptoKeyRing this) (encode_keyIndex this) = None ->
  enqueued (_encodeFunction random chunk this).2 = []
  /\ logged (_encodeFunction random chunk this).2
     = [Message "Could not encrypt frame as there is no key."]
  /\ raises (_encodeFunction random chunk this).2 = false
  /\ (_encodeFunction random chunk this).1 = this.
Proof.
  intros Hk. rewrite encode_no_key by assumption. now cbn.
Qed.

(** C10.  One frame through the encoder: the ring, the current index and the
    options are unchanged; every counter but the frame's own is unchanged;
    the frame's own counter is untouched when there is no key and otherwise
    becomes the count it had (or the random seed, on first use) plus one. *)
Theorem encode_frame_effect (random : Z) (chunk : RTCEncodedVideoFrame)
    (this : E2EEcontext) :
  let this' := (_encodeFunction random chunk this).1 in
  let ssrc := synchronizationSource chunk in
  _cryptoKeyRing this' = _cryptoKeyRing this
  /\ _currentKeyIndex this' = _currentKeyIndex this
  /\ _options this' = _options this
  /\ (forall s : Z, s <> ssrc -> _sendCounts this' !! s = _sendCounts this !! s)
  /\ match ring_at (_cryptoKeyRing this) (encode_keyIndex this) with
     | Some _ =>
         _sendCounts this' !! ssrc
         = Some (default random (_sendCounts this !! ssrc) + 1)
     | None => _sendCounts this' = _sendCounts this
     end.
Proof.
  intros this' ssrc. subst this' ssrc.
  destruct (encode_cases random chunk this) as [Hk|k Hk Hs|k Hk Hf He|k ct Hk Hf He];
    rewrite Hk; cbn [fst counted _cryptoKeyRing _currentKeyIndex _options _sendCounts].
  1: now repeat split.
  all: split; [reflexivity|]; split; [reflexivity|]; split; [reflexivity|].
  all: split; [intros s Hs'; now rewrite lookup_insert_ne by auto|].
  all: apply lookup_insert_eq.
Qed.

End EncoderOutput.

(** The key index is 1 and the final byte of the emitted frame is 0. *)
Lemma encoded_frame_layout_witness :
  encode_keyIndex (Toy.context 1) = Some 1
  /\ exists wire ct,
      enqueued (_encodeFunction 7 (Toy.frame delta Toy.payload_odd) (Toy.context 1)).2
        = [wire]
      /\ data wire = Toy.bytes [1; 1; 2] ++ ct
                     ++ Toy.bytes [0; 0; 0; 42; 0; 0; 3; 232; 0; 0; 0; 7] ++ [x00]
      /\ last (data wire) = Some x00.
Proof.
  split; [reflexivity|].
  destruct (encoded_frame_layout 7 (Toy.frame delta Toy.payload_odd)
              (Toy.sent 7 (Toy.frame delta Toy.payload_odd) (Toy.context 1))
              (Toy.context 1))
    as (ct & Hd & _ & _ & _ & Hl).
  - vm_compute. left.
  - eexists _, ct. split; [vm_compute; reflexivity|]. split; [exact Hd|exact Hl].
Defined.

Lemma prefix_preserved_witness :
  take 3 (data (Toy.sent 7 (Toy.frame delta Toy.payload_odd) (Toy.context 1)))
  = take 3 (data (Toy.frame delta Toy.payload_odd)).
Proof.
  destruct prefix_preserved as (_ & _ & H).
  refine (proj1 (H 7 (Toy.frame delta Toy.payload_odd)
                   (Toy.sent 7 (Toy.frame delta Toy.payload_odd) (Toy.context 1))
                   (Toy.context 1) _)).
  vm_compute. left.
Defined.

Lemma encoder_without_key_enqueues_nothing_witness :
  enqueued (_encodeFunction 7 (Toy.frame key Toy.payload_even) (constructor "salt")).2
  = [].
Proof.
  refine (proj1 (encoder_without_key_enqueues_nothing 7
                   (Toy.frame key Toy.payload_even) (constructor "salt") _)).
  reflexivity.
Defined.

Lemma encode_frame_effect_witness :
  _sendCounts (_encodeFunction 7 (Toy.frame key Toy.payload_even) (Toy.context 0)).1
    !! 43
  = _sendCounts (Toy.context 0) !! 43.
Proof.
  destruct (encode_frame_effect 7 (Toy.frame key Toy.payload_even) (Toy.context 0))
    as (_ & _ & _ & H & _).
  apply H. cbn. lia.
Defined.

(** ** [setKey] *)

Section SetKey.
Context `{SC : SubtleCrypto}.

Lemma setKey_unchanged (_deriveKey : string -> option CryptoKey) (value : string)
    (this : E2EEcontext) :
  (setKey _deriveKey value this).1 = this.
Proof. unfold setKey. now destruct (_deriveKey value). Qed.

Lemma constructor_no_key (options : string) :
  ring_at (_cryptoKeyRing (constructor options))
    (encode_keyIndex (constructor options)) = None.
Proof. reflexivity. Qed.

(** C3.  [setKey] derives a key and then stops: whatever the derivation and
    however many secrets are set, the context is the one the constructor
    built (every slot empty, current index -1), so the encoder has no key and
    no frame is encrypted, neither under the first secret nor under the
    ninth. *)
Theorem setKey_installs_nothing (_deriveKey : string -> option CryptoKey)
    (values : list string) (options : string) :
  let this :=
    foldl (fun c v => (setKey _deriveKey v c).1) (constructor options) values in
  this = constructor options
  /\ _currentKeyIndex this = -1
  /\ _cryptoKeyRing this = replicate 8 None
  /\ forall (random : Z) (chunk : RTCEncodedVideoFrame),
      _encodeFunction random chunk this
      = (this, [LoggerError (Message "Could not encrypt frame as there is no key.")]).
Proof.
  intros this.
  assert (Heq : this = constructor options).
  { subst this. generalize (constructor options) as c.
    induction values as [|v values IH]; intros c; cbn [foldl]; [reflexivity|].
    now rewrite setKey_unchanged, IH. }
  rewrite Heq. split; [reflexivity|]. split; [reflexivity|]. split; [reflexivity|].
  intros random chunk. apply encode_no_key, constructor_no_key.
Qed.

End SetKey.

(** ** Frames the decoder cannot take apart *)

Section ShortFrames.
Context `{SC : SubtleCrypto}.

(** C6, as the code has it.  A frame too short for the wire layout (fewer
    than 13 + 3 bytes) is enqueued unmodified when its last byte does not
    name an occupied slot of the ring (or when it has no byte at all). *)
Theorem short_frame_without_key_passes_through (chunk : RTCEncodedVideoFrame)
    (this : E2EEcontext) :
  Js.byteLength (data chunk) < 13 + 3 ->
  ring_at (_cryptoKeyRing this) (decode_keyIndex (data chunk)) = None ->
  _decodeFunction chunk this = (this, [Enqueue chunk]).
Proof. intros _ Hk. now apply decode_no_key. Qed.

(** C7, as the code has it.  The encoder raises exactly when a key is active
    and the payload is shorter than the unencrypted prefix; the decoder raises
    exactly when the last byte names an occupied slot and the payload is
    shorter than prefix, iv and index byte together.  A call that does not
    raise and enqueues nothing reports to the logger. *)
Theorem transforms_raise_only_on_short_payloads (random : Z)
    (chunk : RTCEncodedVideoFrame) (this : E2EEcontext) :
  (raises (_encodeFunction random chunk this).2 = true
   <-> is_Some (ring_at (_cryptoKeyRing this) (encode_keyIndex this))
       /\ Js.byteLength (data chunk) < unencryptedBytes (type chunk))
  /\ (raises (_decodeFunction chunk this).2 = true
      <-> is_Some (ring_at (_cryptoKeyRing this) (decode_keyIndex (data chunk)))
          /\ Js.byteLength (data chunk)
             < unencryptedBytes (decode_chunkType (data chunk)) + ivLength + 1)
  /\ (raises (_encodeFunction random chunk this).2 = false ->
      enqueued (_encodeFunction random chunk this).2 = [] ->
      logged (_encodeFunction random chunk this).2 <> [])
  /\ (raises (_decodeFunction chunk this).2 = false ->
      enqueued (_decodeFunction chunk this).2 = [] ->
      logged (_decodeFunction chunk this).2 <> []).
Proof.
  split; [|split; [|split]].
  - split.
    + destruct (encode_cases random chunk this)
        as [Hk|k Hk Hs|k Hk Hf He|k ct Hk Hf He];
        cbn; intros Hr; try discriminate. rewrite Hk. eauto.
    + intros [[k Hk] Hs]. now rewrite (encode_short _ _ _ k).
  - split.
    + destruct (decode_cases chunk this)
        as [Hk|k Hk Hs|k Hk Hf He|k pt Hk Hf He];
        cbn; intros Hr; try discriminate. rewrite Hk. eauto.
    + intros [[k Hk] Hs]. now rewrite (decode_short _ _ k).
  - destruct (encode_cases random chunk this)
      as [Hk|k Hk Hs|k Hk Hf He|k ct Hk Hf He];
      cbn; intros Hr Hq; discriminate.
  - destruct (decode_cases chunk this)
      as [Hk|k Hk Hs|k Hk Hf He|k pt Hk Hf He];
      cbn; intros Hr Hq; discriminate.
Qed.

End ShortFrames.

(** C6 fails as stated: a one-byte frame whose byte names the occupied slot 0
    is not enqueued; the view for the iv is out of range. *)
Lemma short_frame_with_key_index_raises :
  Js.byteLength (data (Toy.frame key [0])) < 13 + 3
  /\ (_decodeFunction (Toy.frame key [0]) (Toy.context 0)).2 = [RangeError]
  /\ enqueued (_decodeFunction (Toy.frame key [0]) (Toy.context 0)).2
     <> [Toy.frame key [0]].
Proof.
  split; [reflexivity|]. split; [reflexivity|].
  vm_compute. discriminate.
Qed.

Lemma short_frame_without_key_passes_through_witness :
  _decodeFunction (Toy.frame key [9]) (Toy.context 0)
  = (Toy.context 0, [Enqueue (Toy.frame key [9])]).
Proof.
  apply short_frame_without_key_passes_through.
  - vm_compute. reflexivity.
  - vm_compute. reflexivity.
Defined.

(** C7 fails as stated: with a key active, a key frame of four bytes makes
    the encoder raise, and a one-byte frame makes the decoder raise. *)
Lemma transforms_raise_on_short_payloads :
  raises (_encodeFunction 7 (Toy.frame key [0; 1; 2; 3]) (Toy.context 0)).2 = true
  /\ logged (_encodeFunction 7 (Toy.frame key [0; 1; 2; 3]) (Toy.context 0)).2 = []
  /\ raises (_decodeFunction (Toy.frame key [0]) (Toy.context 0)).2 = true
  /\ logged (_decodeFunction (Toy.frame key [0]) (Toy.context 0)).2 = [].
Proof. repeat split; vm_compute; reflexivity. Qed.

Lemma transforms_raise_only_on_short_payloads_witness :
  logged (_encodeFunction 7 (Toy.frame key Toy.payload_even) (constructor "salt")).2
  <> [].
Proof.
  destruct (transforms_raise_only_on_short_payloads 7
              (Toy.frame key Toy.payload_even) (constructor "salt"))
    as (_ & _ & H & _).
  apply H; reflexivity.
Defined.

(** ** The nonce *)

Section Nonce.
Context `{SC : SubtleCrypto}.

Lemma wire_nonce_layout (pre ct iv : list byte) :
  length iv = 12%nat -> wire_nonce (pre ++ ct ++ iv ++ [x00]) = iv.
Proof.
  intros Hiv. unfold wire_nonce.
  rewrite (app_assoc pre ct), (app_assoc (pre ++ ct) iv).
  rewrite drop_app_le by (rewrite !length_app; cbn [length]; lia).
  rewrite drop_app_length' by (rewrite !length_app; cbn [length]; lia).
  now rewrite take_app_length' by lia.
Qed.

Lemma encode_iv_counter_field (chunk : RTCEncodedVideoFrame) (sendCount : Z) :
  take 4 (drop 8 (encode_iv chunk sendCount)) = Js.be32 (Z.rem sendCount 0xFFFF).
Proof. reflexivity. Qed.

Lemma encode_nonces (random : Z) (chunk : RTCEncodedVideoFrame)
    (this : E2EEcontext) (iv : list byte) :
  iv ∈ nonces (_encodeFunction random chunk this).2 ->
  iv = encode_iv chunk (sendCount_for random chunk this).
Proof.
  destruct (encode_cases random chunk this) as [Hk|k Hk Hs|k Hk Hf He|k ct Hk Hf He];
    cbn; intros Hin; try (apply elem_of_nil in Hin; contradiction);
    now apply list_elem_of_singleton in Hin.
Qed.

(** C4, as the code has it.  With a key active, the iv handed to the cipher
    and the nonce of the frame that is enqueued carry, in bytes [8..12), the
    big-endian value of the send count reduced modulo 0xFFFF; the table then
    holds the send count plus one. *)
Theorem nonce_counter_field (random : Z) (chunk : RTCEncodedVideoFrame)
    (this : E2EEcontext) (k : CryptoKey) :
  ring_at (_cryptoKeyRing this) (encode_keyIndex this) = Some k ->
  0 <= sendCount_for random chunk this ->
  let count := sendCount_for random chunk this in
  let r := _encodeFunction random chunk this in
  (forall iv, iv ∈ nonces r.2 ->
     take 4 (drop 8 iv) = Js.be32 (count mod 0xFFFF)
     /\ Js.be32_value (take 4 (drop 8 iv)) = count mod 0xFFFF)
  /\ (forall wire, wire ∈ enqueued r.2 ->
        take 4 (drop 8 (wire_nonce (data wire))) = Js.be32 (count mod 0xFFFF))
  /\ _sendCounts r.1 !! synchronizationSource chunk = Some (count + 1).
Proof.
  intros Hk Hc count r.
  assert (Hrem : Z.rem count 0xFFFF = count mod 0xFFFF)
    by (apply Z.rem_mod_nonneg; lia).
  split; [|split].
  - intros iv Hin. apply encode_nonces in Hin. subst iv.
    rewrite encode_iv_counter_field. fold count. rewrite Hrem. split; [reflexivity|].
    rewrite be32_value_be32.
    pose proof (Z.mod_pos_bound count 0xFFFF ltac:(lia)).
    apply Z.mod_small. lia.
  - intros wire Hin.
    destruct (encode_wire_layout _ _ _ _ Hin) as (k' & ct & _ & _ & _ & _ & ->).
    cbn [data with_data]. rewrite wire_nonce_layout by reflexivity.
    rewrite encode_iv_counter_field. fold count. now rewrite Hrem.
  - subst r. rewrite (encode_context_with_key _ _ _ k Hk).
    cbn [counted _sendCounts]. apply lookup_insert_eq.
Qed.

End Nonce.

(** C4 fails as stated.  Seeded with 65534, the counter of source 42 is 65535
    after one frame; the next frame carries 0 in bytes [8..12) of its iv,
    where 65535 modulo 0x10000 would be 65535. *)
Lemma nonce_counter_field_wraps_at_0xFFFF :
  let this := (_encodeFunction 65534 (Toy.frame key Toy.payload_even) (Toy.context 0)).1 in
  _sendCounts this !! 42 = Some 65535
  /\ exists iv,
      nonces (_encodeFunction 0 (Toy.frame key Toy.payload_even) this).2 = [iv]
      /\ take 4 (drop 8 iv) = Toy.bytes [0; 0; 0; 0]
      /\ Js.be32 (65535 mod 0x10000) = Toy.bytes [0; 0; 255; 255]
      /\ take 4 (drop 8 iv) <> Js.be32 (65535 mod 0x10000).
Proof.
  split; [vm_compute; reflexivity|].
  eexists. split; [vm_compute; reflexivity|].
  split; [vm_compute; reflexivity|]. split; [vm_compute; reflexivity|].
  vm_compute. discriminate.
Qed.

Lemma nonce_counter_field_witness :
  _sendCounts (_encodeFunction 7 (Toy.frame key Toy.payload_even) (Toy.context 0)).1
    !! 42 = Some 8.
Proof.
  refine (proj2 (proj2 (nonce_counter_field 7 (Toy.frame key Toy.payload_even)
                          (Toy.context 0) x07 _ _))).
  - vm_compute. reflexivity.
  - vm_compute. discriminate.
Defined.

(** ** Decoding what the encoder emitted *)

Section Roundtrip.
Context `{SC : SubtleCrypto}.

Lemma wire_byteLength (pre ct iv : list byte) :
  Js.byteLength (pre ++ ct ++ iv ++ [x00])
  = Z.of_nat (length pre) + Z.of_nat (length ct) + Z.of_nat (length iv) + 1.
Proof. unfold Js.byteLength. rewrite !length_app. cbn [length]. lia. Qed.

Lemma wire_keyIndex (pre ct iv : list byte) :
  decode_keyIndex (pre ++ ct ++ iv ++ [x00]) = Some 0.
Proof.
  unfold decode_keyIndex. rewrite wire_byteLength.
  destruct (Z.ltb_spec
              (Z.of_nat (length pre) + Z.of_nat (length ct) + Z.of_nat (length iv) + 1) 1);
    [lia|].
  replace (Z.to_nat (Z.of_nat (length pre) + Z.of_nat (length ct)
                     + Z.of_nat (length iv) + 1 - 1))
    with (length (pre ++ ct ++ iv) + 0)%nat
    by (rewrite !length_app; lia).
  rewrite !app_assoc, <- (app_assoc pre ct iv).
  rewrite lookup_app_r by lia.
  replace (length (pre ++ ct ++ iv) + 0 - length (pre ++ ct ++ iv))%nat with 0%nat by lia.
  reflexivity.
Qed.

Lemma decode_chunkType_app (pre rest : list byte) :
  (0 < length pre)%nat -> decode_chunkType (pre ++ rest) = decode_chunkType pre.
Proof.
  intros Hpre. unfold decode_chunkType. now rewrite lookup_app_l by lia.
Qed.

Lemma decode_chunkType_take (n : nat) (d : list byte) :
  (0 < n)%nat -> decode_chunkType (take n d) = decode_chunkType d.
Proof.
  intros Hn. unfold decode_chunkType. now rewrite lookup_take_lt by lia.
Qed.

Lemma wire_iv (pre ct iv : list byte) :
  length iv = 12%nat -> decode_iv (pre ++ ct ++ iv ++ [x00]) = iv.
Proof.
  intros Hiv. unfold decode_iv, ivLength. rewrite wire_byteLength.
  replace (Z.to_nat (Z.of_nat (length pre) + Z.of_nat (length ct)
                     + Z.of_nat (length iv) + 1 - 12 - 1))
    with (length (pre ++ ct)) by (rewrite length_app; lia).
  rewrite (app_assoc pre ct), drop_app_length.
  now rewrite take_app_length' by lia.
Qed.

Lemma wire_cipherText (pre ct iv : list byte) :
  length iv = 12%nat ->
  Z.of_nat (length pre) = unencryptedBytes (decode_chunkType pre) ->
  decode_cipherText (pre ++ ct ++ iv ++ [x00]) = ct.
Proof.
  intros Hiv Hpre. unfold decode_cipherText, ivLength.
  pose proof (unencryptedBytes_pos (decode_chunkType pre)) as Hp.
  rewrite decode_chunkType_app by lia. rewrite wire_byteLength, <- Hpre.
  rewrite Nat2Z.id, drop_app_length.
  now rewrite take_app_length' by lia.
Qed.

(** The decoder on a payload in wire layout whose index byte is zero: the
    new buffer has 10 bytes more than the plaintext, whatever the prefix. *)
Lemma decode_wire (chunk : RTCEncodedVideoFrame) (this : E2EEcontext)
    (k : CryptoKey) (pre ct iv pt : list byte) :
  data chunk = pre ++ ct ++ iv ++ [x00] ->
  Z.of_nat (length pre) = unencryptedBytes (decode_chunkType pre) ->
  length iv = 12%nat ->
  ring_at (_cryptoKeyRing this) (Some 0) = Some k ->
  decrypt k iv ct = Some pt ->
  _decodeFunction chunk this
  = (this, [SubtleDecrypt k iv ct;
            Enqueue (with_data chunk
              (pre ++ pt ++ replicate (Z.to_nat (10 - Z.of_nat (length pre))) x00))]).
Proof.
  intros Hd Hpre Hiv Hk Hdec.
  pose proof (unencryptedBytes_pos (decode_chunkType pre)) as Hp.
  assert (Ht : decode_chunkType (data chunk) = decode_chunkType pre)
    by (rewrite Hd; apply decode_chunkType_app; lia).
  rewrite (decode_decrypted chunk this k pt).
  - rewrite Ht, <- Hpre, Nat2Z.id, Hd, wire_iv, wire_cipherText by assumption.
    now rewrite take_app_length.
  - now rewrite Hd, wire_keyIndex.
  - rewrite Ht, Hd, wire_byteLength. unfold ivLength. lia.
  - now rewrite Hd, wire_iv, wire_cipherText.
Qed.

Lemma with_data_back (chunk : RTCEncodedVideoFrame) (d : list byte) :
  with_data (with_data chunk d) (data chunk) = chunk.
Proof. now destruct chunk. Qed.

Context `{!AesGcm SC}.

(** Where the round trip holds.  A frame of type [key] whose first byte has
    its low bit clear, encoded under the active key, is decoded to the frame
    itself when ring slot 0 holds that key: the decoder enqueues exactly the
    input frame and raises nothing. *)
Lemma key_frame_roundtrip (random : Z) (chunk wire : RTCEncodedVideoFrame)
    (this : E2EEcontext) (k : CryptoKey) :
  type chunk = key ->
  decode_chunkType (data chunk) = key ->
  ring_at (_cryptoKeyRing this) (encode_keyIndex this) = Some k ->
  ring_at (_cryptoKeyRing this) (Some 0) = Some k ->
  wire ∈ enqueued (_encodeFunction random chunk this).2 ->
  let this' := (_encodeFunction random chunk this).1 in
  enqueued (_decodeFunction wire this').2 = [chunk]
  /\ raises (_decodeFunction wire this').2 = false
  /\ logged (_decodeFunction wire this').2 = []
  /\ 10 <= Js.byteLength (data chunk).
Proof.
  intros Htype Hbit Hk H0 Hin this'.
  destruct (encode_wire_layout _ _ _ _ Hin)
    as (k' & ct & Hk' & Hfit & Henc & _ & Hwire).
  assert (k' = k) as -> by congruence.
  rewrite Htype in *. cbn [unencryptedBytes] in *.
  set (iv := encode_iv chunk (sendCount_for random chunk this)) in *.
  set (pre := take (Z.to_nat 10) (data chunk)) in *.
  assert (Hpre : length pre = 10%nat).
  { unfold pre. rewrite length_take. unfold Js.byteLength in Hfit. lia. }
  assert (Hpt : decode_chunkType pre = key)
    by (unfold pre; rewrite decode_chunkType_take by lia; exact Hbit).
  assert (Hring : ring_at (_cryptoKeyRing this') (Some 0) = Some k).
  { subst this'. now rewrite (encode_context_with_key _ _ _ k Hk). }
  rewrite (decode_wire wire this' k pre ct iv
             (drop (Z.to_nat 10) (data chunk))).
  - cbn [enqueued omap raises existsb logged snd].
    rewrite Hpre. cbn [Z.to_nat Z.sub Z.of_nat replicate].
    change (Z.to_nat (10 - 10)) with 0%nat. cbn [replicate].
    rewrite app_nil_r. unfold pre. rewrite take_drop.
    rewrite Hwire, with_data_back. repeat split. exact Hfit.
  - now rewrite Hwire.
  - rewrite Hpt, Hpre. reflexivity.
  - reflexivity.
  - exact Hring.
  - now apply decrypt_encrypt.
Qed.

(** C1, where the code departs from it.  A frame of type [delta] whose
    first byte is odd (as the first byte of a VP8 delta frame is), encoded
    under the active key with that key in ring slot 0, is not decoded to
    itself: the decoder enqueues the frame followed by seven zero bytes,
    because it allocates 10 bytes for the prefix whatever the frame type. *)
Theorem delta_frame_roundtrip_padded (random : Z) (chunk wire : RTCEncodedVideoFrame)
    (this : E2EEcontext) (k : CryptoKey) :
  type chunk = delta ->
  decode_chunkType (data chunk) = delta ->
  ring_at (_cryptoKeyRing this) (encode_keyIndex this) = Some k ->
  ring_at (_cryptoKeyRing this) (Some 0) = Some k ->
  wire ∈ enqueued (_encodeFunction random chunk this).2 ->
  enqueued (_decodeFunction wire (_encodeFunction random chunk this).1).2
  = [with_data chunk (data chunk ++ replicate 7 x00)].
Proof.
  intros Htype Hbit Hk H0 Hin.
  destruct (encode_wire_layout _ _ _ _ Hin)
    as (k' & ct & Hk' & Hfit & Henc & _ & Hwire).
  assert (k' = k) as -> by congruence.
  rewrite Htype in *. cbn [unencryptedBytes] in *.
  set (iv := encode_iv chunk (sendCount_for random chunk this)) in *.
  set (pre := take (Z.to_nat 3) (data chunk)) in *.
  assert (Hpre : length pre = 3%nat).
  { unfold pre. rewrite length_take. unfold Js.byteLength in Hfit. lia. }
  assert (Hpt : decode_chunkType pre = delta)
    by (unfold pre; rewrite decode_chunkType_take by lia; exact Hbit).
  rewrite (decode_wire wire _ k pre ct iv (drop (Z.to_nat 3) (data chunk))).
  - cbn [enqueued omap snd]. rewrite Hpre.
    change (Z.to_nat (10 - Z.of_nat 3)) with 7%nat.
    rewrite app_assoc. unfold pre. rewrite take_drop.
    rewrite Hwire. now destruct chunk.
  - now rewrite Hwire.
  - rewrite Hpt, Hpre. reflexivity.
  - reflexivity.
  - now rewrite (encode_context_with_key _ _ _ k Hk).
  - now apply decrypt_encrypt.
Qed.

End Roundtrip.

(** Two frames that do not survive the round trip.  A frame of type [key]
    whose first byte is odd is taken for a delta frame by the decoder, which
    then hands the cipher a ciphertext that starts seven bytes too early: the
    frame is dropped.  A frame of type [delta] comes back seven bytes longer. *)
Lemma roundtrip_fails :
  (let chunk := Toy.frame key Toy.payload_odd in
   let wire := Toy.sent 7 chunk (Toy.context 0) in
   enqueued (_encodeFunction 7 chunk (Toy.context 0)).2 = [wire]
   /\ enqueued (_decodeFunction wire (_encodeFunction 7 chunk (Toy.context 0)).1).2
      = []
   /\ logged (_decodeFunction wire (_encodeFunction 7 chunk (Toy.context 0)).1).2
      = [Rejection])
  /\ (let chunk := Toy.frame delta Toy.payload_odd in
      let wire := Toy.sent 7 chunk (Toy.context 0) in
      enqueued (_encodeFunction 7 chunk (Toy.context 0)).2 = [wire]
      /\ enqueued (_decodeFunction wire (_encodeFunction 7 chunk (Toy.context 0)).1).2
         = [with_data chunk (data chunk ++ Toy.bytes [0; 0; 0; 0; 0; 0; 0])]
      /\ enqueued (_decodeFunction wire (_encodeFunction 7 chunk (Toy.context 0)).1).2
         <> [chunk]).
Proof.
  split; cbv zeta; repeat split; try (vm_compute; reflexivity).
  vm_compute. discriminate.
Qed.

Lemma key_frame_roundtrip_example :
  enqueued
    (_decodeFunction (Toy.sent 7 (Toy.frame key Toy.payload_even) (Toy.context 0))
       (_encodeFunction 7 (Toy.frame key Toy.payload_even) (Toy.context 0)).1).2
  = [Toy.frame key Toy.payload_even].
Proof.
  refine (proj1 (key_frame_roundtrip 7 (Toy.frame key Toy.payload_even)
                   (Toy.sent 7 (Toy.frame key Toy.payload_even) (Toy.context 0))
                   (Toy.context 0) x07 _ _ _ _ _)).
  - reflexivity.
  - reflexivity.
  - reflexivity.
  - reflexivity.
  - vm_compute. left.
Defined.

(** The delta frame [1, 1, 2, ..., 11] of source 42, key 7 in slot 0. *)
Lemma delta_frame_roundtrip_padded_witness :
  enqueued
    (_decodeFunction (Toy.sent 7 (Toy.frame delta Toy.payload_odd) (Toy.context 0))
       (_encodeFunction 7 (Toy.frame delta Toy.payload_odd) (Toy.context 0)).1).2
  = [with_data (Toy.frame delta Toy.payload_odd)
       (data (Toy.frame delta Toy.payload_odd) ++ replicate 7 x00)].
Proof.
  apply (delta_frame_roundtrip_padded 7 (Toy.frame delta Toy.payload_odd)
           (Toy.sent 7 (Toy.frame delta Toy.payload_odd) (Toy.context 0))
           (Toy.context 0) x07).
  - reflexivity.
  - reflexivity.
  - reflexivity.
  - reflexivity.
  - vm_compute. left.
Defined.

(** ** Nonces of consecutive frames of one source *)

Section NonceUniqueness.
Context `{SC : SubtleCrypto}.

Lemma encodeAll_cons (random : Z) (chunk : RTCEncodedVideoFrame)
    (rest : list (Z * RTCEncodedVideoFrame)) (this : E2EEcontext) :
  (encodeAll ((random, chunk) :: rest) this).2
  = (_encodeFunction random chunk this).2
    ++ (encodeAll rest (_encodeFunction random chunk this).1).2.
Proof.
  change (encodeAll ((random, chunk) :: rest) this)
    with (let '(this', evs) := _encodeFunction random chunk this in
          let '(this'', evs') := encodeAll rest this' in
          (this'', evs ++ evs')).
  destruct (_encodeFunction random chunk this) as [this' evs]. cbn [fst snd].
  now destruct (encodeAll rest this') as [this'' evs'].
Qed.

Lemma nonces_app (evs evs' : list Event) :
  nonces (evs ++ evs') = nonces evs ++ nonces evs'.
Proof. apply omap_app. Qed.




Lemma counted_key (random : Z) (chunk : RTCEncodedVideoFrame)
    (this : E2EEcontext) :
  ring_at (_cryptoKeyRing (counted random chunk this))
    (encode_keyIndex (counted random chunk this))
  = ring_at (_cryptoKeyRing this) (encode_keyIndex this).
Proof. reflexivity. Qed.

Lemma counted_next (random random' : Z) (chunk chunk' : RTCEncodedVideoFrame)
    (this : E2EEcontext) :
  synchronizationSource chunk' = synchronizationSource chunk ->
  sendCount_for random' chunk' (counted random chunk this)
  = sendCount_for random chunk this + 1.
Proof.
  intros Hs. unfold sendCount_for at 1. cbn [counted _sendCounts].
  now rewrite Hs, lookup_insert_eq.
Qed.




End NonceUniqueness.


(** ** One call, one effect *)

Section SingleCall.
Context `{SC : SubtleCrypto}.

Lemma enqueued_app (evs evs' : list Event) :
  enqueued (evs ++ evs') = enqueued evs ++ enqueued evs'.
Proof. apply omap_app. Qed.

Lemma logged_app (evs evs' : list Event) :
  logged (evs ++ evs') = logged evs ++ logged evs'.
Proof. apply omap_app. Qed.

Lemma raises_app (evs evs' : list Event) :
  raises (evs ++ evs') = raises evs || raises evs'.
Proof. apply existsb_app. Qed.

Lemma decode_context (chunk : RTCEncodedVideoFrame) (this : E2EEcontext) :
  (_decodeFunction chunk this).1 = this.
Proof.
  now destruct (decode_cases chunk this) as [Hk|k Hk Hs|k Hk Hf He|k pt Hk Hf He].
Qed.

(** A call of either transform does exactly one of three things: it
    enqueues one frame, it reports once to the logger, or it raises.  It
    never enqueues two frames and never both enqueues and reports. *)
Theorem transform_single_effect (random : Z) (chunk : RTCEncodedVideoFrame)
    (this : E2EEcontext) :
  let effects (evs : list Event) :=
    (length (enqueued evs) + length (logged evs)
     + (if raises evs then 1 else 0))%nat in
  effects (_encodeFunction random chunk this).2 = 1%nat
  /\ effects (_decodeFunction chunk this).2 = 1%nat.
Proof.
  split.
  - now destruct (encode_cases random chunk this)
      as [Hk|k Hk Hs|k Hk Hf He|k ct Hk Hf He].
  - now destruct (decode_cases chunk this)
      as [Hk|k Hk Hs|k Hk Hf He|k pt Hk Hf He].
Qed.

(** Where a frame enqueued by the decoder comes from.  The decoder never
    changes the context.  A frame it enqueues is the input frame itself, when
    the ring has no key at the index in the last byte, or else the input frame
    with a payload built from a plaintext the cipher returned for the iv and
    ciphertext read from the input: the prefix, the plaintext, and zero bytes
    up to 10 + plaintext length.  Nothing is enqueued from a decryption that
    was rejected. *)
Theorem decoder_output_origin (chunk : RTCEncodedVideoFrame)
    (this : E2EEcontext) :
  (_decodeFunction chunk this).1 = this
  /\ forall out : RTCEncodedVideoFrame,
      out ∈ enqueued (_decodeFunction chunk this).2 ->
      let d := data chunk in
      let n := unencryptedBytes (decode_chunkType d) in
      (ring_at (_cryptoKeyRing this) (decode_keyIndex d) = None /\ out = chunk)
      \/ exists k pt,
          ring_at (_cryptoKeyRing this) (decode_keyIndex d) = Some k
          /\ decrypt k (decode_iv d) (decode_cipherText d) = Some pt
          /\ out = with_data chunk
                     (take (Z.to_nat n) d ++ pt ++ replicate (Z.to_nat (10 - n)) x00)
          /\ Js.byteLength (data out) = 10 + Js.byteLength pt.
Proof.
  split; [apply decode_context|].
  intros out Hin d n.
  destruct (decode_cases chunk this) as [Hk|k Hk Hs|k Hk Hf He|k pt Hk Hf He];
    cbn in Hin; try (apply elem_of_nil in Hin; contradiction);
    apply list_elem_of_singleton in Hin; subst out.
  - left. now split.
  - right. exists k, pt. fold d n. repeat split; try assumption.
    cbn [data with_data]. unfold Js.byteLength.
    pose proof (unencryptedBytes_pos (decode_chunkType d)) as Hp. fold n in Hp.
    fold d n in Hf. unfold ivLength, Js.byteLength in Hf.
    rewrite !length_app, length_take, length_replicate. lia.
Qed.

(** The decoder does not reduce the index byte modulo the ring size: a frame
    whose last byte is not below the length of the ring (for the ring of the
    constructor, a byte from 8 to 255) is enqueued unmodified, whatever the
    ring holds. *)
Theorem decode_index_beyond_ring (chunk : RTCEncodedVideoFrame)
    (this : E2EEcontext) (i : Z) :
  decode_keyIndex (data chunk) = Some i ->
  Z.of_nat (length (_cryptoKeyRing this)) <= i ->
  _decodeFunction chunk this = (this, [Enqueue chunk]).
Proof.
  intros Hi Hge. apply decode_no_key. rewrite Hi. unfold ring_at.
  destruct (Z.ltb_spec i 0); [reflexivity|].
  now rewrite (lookup_ge_None_2 (_cryptoKeyRing this) (Z.to_nat i)) by lia.
Qed.

End SingleCall.

Lemma decoder_output_origin_witness :
  ring_at (_cryptoKeyRing (Toy.context 0))
    (decode_keyIndex (data (Toy.frame key [9]))) = None
  \/ is_Some (ring_at (_cryptoKeyRing (Toy.context 0))
                (decode_keyIndex (data (Toy.frame key [9])))).
Proof.
  destruct (proj2 (decoder_output_origin (Toy.frame key [9]) (Toy.context 0))
              (Toy.frame key [9])) as [[H _]|(k & pt & H & _)].
  - vm_compute. left.
  - left. exact H.
  - right. exists k. exact H.
Defined.

Lemma decode_index_beyond_ring_witness :
  _decodeFunction (Toy.frame key [0; 1; 2; 200]) (Toy.context 0)
  = (Toy.context 0, [Enqueue (Toy.frame key [0; 1; 2; 200])]).
Proof.
  apply (decode_index_beyond_ring _ _ 200).
  - reflexivity.
  - vm_compute. discriminate.
Defined.

(** ** The decoder on payloads in wire layout *)

Section WireLayout.
Context `{SC : SubtleCrypto}.

Lemma layout_byteLength (pre ct iv : list byte) (b : byte) :
  Js.byteLength (pre ++ ct ++ iv ++ [b])
  = Z.of_nat (length pre) + Z.of_nat (length ct) + Z.of_nat (length iv) + 1.
Proof. unfold Js.byteLength. rewrite !length_app. cbn [length]. lia. Qed.

Lemma layout_keyIndex (pre ct iv : list byte) (b : byte) :
  decode_keyIndex (pre ++ ct ++ iv ++ [b]) = Some (Js.Z_of_byte b).
Proof.
  unfold decode_keyIndex. rewrite layout_byteLength.
  destruct (Z.ltb_spec
              (Z.of_nat (length pre) + Z.of_nat (length ct) + Z.of_nat (length iv) + 1) 1);
    [lia|].
  replace (Z.to_nat (Z.of_nat (length pre) + Z.of_nat (length ct)
                     + Z.of_nat (length iv) + 1 - 1))
    with (length (pre ++ ct ++ iv) + 0)%nat
    by (rewrite !length_app; lia).
  rewrite !app_assoc, <- (app_assoc pre ct iv).
  rewrite lookup_app_r by lia.
  replace (length (pre ++ ct ++ iv) + 0 - length (pre ++ ct ++ iv))%nat with 0%nat by lia.
  reflexivity.
Qed.

Lemma layout_iv (pre ct iv : list byte) (b : byte) :
  length iv = 12%nat -> decode_iv (pre ++ ct ++ iv ++ [b]) = iv.
Proof.
  intros Hiv. unfold decode_iv, ivLength. rewrite layout_byteLength.
  replace (Z.to_nat (Z.of_nat (length pre) + Z.of_nat (length ct)
                     + Z.of_nat (length iv) + 1 - 12 - 1))
    with (length (pre ++ ct)) by (rewrite length_app; lia).
  rewrite (app_assoc pre ct), drop_app_length.
  now rewrite take_app_length' by lia.
Qed.

Lemma layout_cipherText (pre ct iv : list byte) (b : byte) :
  length iv = 12%nat ->
  Z.of_nat (length pre) = unencryptedBytes (decode_chunkType pre) ->
  decode_cipherText (pre ++ ct ++ iv ++ [b]) = ct.
Proof.
  intros Hiv Hpre. unfold decode_cipherText, ivLength.
  pose proof (unencryptedBytes_pos (decode_chunkType pre)) as Hp.
  rewrite decode_chunkType_app by lia. rewrite layout_byteLength, <- Hpre.
  rewrite Nat2Z.id, drop_app_length.
  now rewrite take_app_length' by lia.
Qed.

(** A payload in wire layout: a prefix of the length its own first byte
    calls for (10 when the low bit of that byte is clear, 3 otherwise), a
    ciphertext, a 12-byte iv and an index byte [b].  When ring slot [b] holds
    a key under which the ciphertext decrypts, the decoder hands exactly that
    iv and ciphertext to the cipher and enqueues prefix and plaintext,
    followed by [10 - P] zero bytes: none for a 10-byte prefix, seven for a
    3-byte one. *)
Theorem decode_wire_layout (chunk : RTCEncodedVideoFrame) (this : E2EEcontext)
    (k : CryptoKey) (b : byte) (pre ct iv pt : list byte) :
  data chunk = pre ++ ct ++ iv ++ [b] ->
  Z.of_nat (length pre) = unencryptedBytes (decode_chunkType pre) ->
  length iv = 12%nat ->
  ring_at (_cryptoKeyRing this) (Some (Js.Z_of_byte b)) = Some k ->
  decrypt k iv ct = Some pt ->
  _decodeFunction chunk this
  = (this, [SubtleDecrypt k iv ct;
            Enqueue (with_data chunk
              (pre ++ pt ++ replicate (Z.to_nat (10 - Z.of_nat (length pre))) x00))]).
Proof.
  intros Hd Hpre Hiv Hk Hdec.
  pose proof (unencryptedBytes_pos (decode_chunkType pre)) as Hp.
  assert (Ht : decode_chunkType (data chunk) = decode_chunkType pre)
    by (rewrite Hd; apply decode_chunkType_app; lia).
  rewrite (decode_decrypted chunk this k pt).
  - rewrite Ht, <- Hpre, Nat2Z.id, Hd, layout_iv, layout_cipherText by assumption.
    now rewrite take_app_length.
  - now rewrite Hd, layout_keyIndex.
  - rewrite Ht, Hd, layout_byteLength. unfold ivLength. lia.
  - now rewrite Hd, layout_iv, layout_cipherText.
Qed.

(** The decoder raises on no frame the encoder enqueued, whatever context
    decodes it, when the cipher appends a 16-byte tag to its output: such a
    frame always holds a 10-byte prefix, the iv and the index byte. *)
Theorem decoder_accepts_encoder_output (random : Z)
    (chunk wire : RTCEncodedVideoFrame) (this that : E2EEcontext) :
  (forall (k : CryptoKey) (iv pt ct : list byte),
      encrypt k iv pt = Some ct -> length ct = (length pt + 16)%nat) ->
  wire ∈ enqueued (_encodeFunction random chunk this).2 ->
  raises (_decodeFunction wire that).2 = false
  /\ unencryptedBytes (decode_chunkType (data wire)) + ivLength + 1
     <= Js.byteLength (data wire).
Proof.
  intros Htag Hin.
  destruct (encode_wire_layout _ _ _ _ Hin)
    as (k & ct & Hk & Hfit & Henc & _ & Hwire).
  apply Htag in Henc.
  pose proof (unencryptedBytes_pos (type chunk)) as Hp.
  pose proof (unencryptedBytes_pos (decode_chunkType (data wire))) as Hp'.
  assert (Hlen : unencryptedBytes (decode_chunkType (data wire)) + ivLength + 1
                 <= Js.byteLength (data wire)).
  { rewrite Hwire at 2. cbn [data with_data]. rewrite layout_byteLength.
    rewrite encode_iv_length, length_take. unfold ivLength.
    unfold Js.byteLength in Hfit. lia. }
  split; [|exact Hlen].
  destruct (decode_cases wire that) as [Hk'|k' Hk' Hs|k' Hk' Hf He|k' pt Hk' Hf He];
    try reflexivity. lia.
Qed.

End WireLayout.

Lemma toy_encrypt_length (k : byte) (iv pt ct : list byte) :
  Toy.encrypt k iv pt = Some ct -> length ct = (length pt + 16)%nat.
Proof.
  unfold Toy.encrypt. intros [= <-].
  rewrite length_app, length_map. unfold Toy.tag. now rewrite length_replicate.
Qed.

Lemma decode_wire_layout_witness :
  enqueued (_decodeFunction (Toy.wire_slot x03) (Toy.context 3)).2
  = [Toy.frame key Toy.payload_even].
Proof.
  rewrite (decode_wire_layout (Toy.wire_slot x03) (Toy.context 3) x07 x03
             (Toy.bytes [0; 1; 2; 3; 4; 5; 6; 7; 8; 9]) Toy.cipherText0 Toy.iv0
             (Toy.bytes [10; 11])).
  - reflexivity.
  - reflexivity.
  - reflexivity.
  - reflexivity.
  - reflexivity.
  - vm_compute. reflexivity.
Defined.

Lemma decoder_accepts_encoder_output_witness :
  raises (_decodeFunction
            (Toy.sent 7 (Toy.frame delta Toy.payload_even) (Toy.context 1))
            (Toy.context 0)).2 = false.
Proof.
  refine (proj1 (decoder_accepts_encoder_output 7
                   (Toy.frame delta Toy.payload_even)
                   (Toy.sent 7 (Toy.frame delta Toy.payload_even) (Toy.context 1))
                   (Toy.context 1) (Toy.context 0) _ _)).
  - exact toy_encrypt_length.
  - vm_compute. left.
Defined.

(** ** The nonce, field by field *)

Section NonceFields.
Context `{SC : SubtleCrypto}.

Lemma be32_eq_iff (a b : Z) : Js.be32 a = Js.be32 b <-> a mod 2 ^ 32 = b mod 2 ^ 32.
Proof.
  split; intros H.
  - rewrite <- !be32_value_be32. now rewrite H.
  - unfold Js.be32, Js.ToUint32. now rewrite H.
Qed.

(** The nonce of a frame the encoder enqueues is the iv it handed to the
    cipher, and the plaintext it handed over is the payload after the
    unencrypted prefix.  Bytes [0..4) of the nonce are the synchronization
    source and bytes [4..8) the timestamp, both big-endian and reduced modulo
    2^32. *)
Theorem encoded_nonce_fields (random : Z) (chunk wire : RTCEncodedVideoFrame)
    (this : E2EEcontext) :
  wire ∈ enqueued (_encodeFunction random chunk this).2 ->
  let iv := wire_nonce (data wire) in
  length iv = 12%nat
  /\ take 4 iv = Js.be32 (synchronizationSource chunk)
  /\ take 4 (drop 4 iv) = Js.be32 (timestamp chunk)
  /\ Js.be32_value (take 4 iv) = synchronizationSource chunk mod 2 ^ 32
  /\ Js.be32_value (take 4 (drop 4 iv)) = timestamp chunk mod 2 ^ 32
  /\ exists k,
      (_encodeFunction random chunk this).2
      = [SubtleEncrypt k iv
           (drop (Z.to_nat (unencryptedBytes (type chunk))) (data chunk));
         Enqueue wire].
Proof.
  intros Hin iv.
  destruct (encode_wire_layout _ _ _ _ Hin)
    as (k & ct & Hk & Hfit & Henc & Hrun & Hwire).
  assert (Hiv : iv = encode_iv chunk (sendCount_for random chunk this)).
  { unfold iv. rewrite Hwire. cbn [data with_data].
    now rewrite wire_nonce_layout by reflexivity. }
  rewrite Hiv. split; [reflexivity|]. split; [reflexivity|].
  split; [reflexivity|].
  split; [|split].
  - change (take 4 (encode_iv chunk (sendCount_for random chunk this)))
      with (Js.be32 (synchronizationSource chunk)).
    apply be32_value_be32.
  - change (take 4 (drop 4 (encode_iv chunk (sendCount_for random chunk this))))
      with (Js.be32 (timestamp chunk)).
    apply be32_value_be32.
  - exists k. now rewrite Hrun.
Qed.

(** When two nonces are the same.  The ivs of two calls of the encoder are
    equal exactly when the two frames agree on the synchronization source
    modulo 2^32, on the timestamp modulo 2^32 and on the send count reduced
    by [% 0xFFFF]. *)
Theorem nonce_equal_iff (random1 random2 : Z)
    (chunk1 chunk2 : RTCEncodedVideoFrame) (this1 this2 : E2EEcontext)
    (iv1 iv2 : list byte) :
  iv1 ∈ nonces (_encodeFunction random1 chunk1 this1).2 ->
  iv2 ∈ nonces (_encodeFunction random2 chunk2 this2).2 ->
  iv1 = iv2
  <-> synchronizationSource chunk1 mod 2 ^ 32 = synchronizationSource chunk2 mod 2 ^ 32
      /\ timestamp chunk1 mod 2 ^ 32 = timestamp chunk2 mod 2 ^ 32
      /\ Z.rem (sendCount_for random1 chunk1 this1) 0xFFFF mod 2 ^ 32
         = Z.rem (sendCount_for random2 chunk2 this2) 0xFFFF mod 2 ^ 32.
Proof.
  intros H1 H2. apply encode_nonces in H1, H2. subst iv1 iv2.
  rewrite !encode_iv_eq. split.
  - intros H.
    apply app_inj_1 in H as [Hs H]; [|reflexivity].
    apply app_inj_1 in H as [Ht Hc]; [|reflexivity].
    now rewrite <- !be32_eq_iff.
  - intros (Hs & Ht & Hc). apply be32_eq_iff in Hs, Ht, Hc.
    now rewrite Hs, Ht, Hc.
Qed.

(** Which slot the encoder uses.  A current index that is not negative
    selects the slot at that index modulo the length of the ring.  A negative
    index above minus the length of the ring (the constructor's -1) selects
    no slot: the frame is reported and not enqueued, whatever the ring
    holds. *)
Theorem current_index_selects_slot (random : Z) (chunk : RTCEncodedVideoFrame)
    (this : E2EEcontext) :
  let size := Z.of_nat (length (_cryptoKeyRing this)) in
  (0 <= _currentKeyIndex this -> 0 < size ->
   ring_at (_cryptoKeyRing this) (encode_keyIndex this)
   = mjoin (_cryptoKeyRing this !! Z.to_nat (_currentKeyIndex this mod size)))
  /\ (- size < _currentKeyIndex this < 0 ->
      _encodeFunction random chunk this
      = (this, [LoggerError (Message "Could not encrypt frame as there is no key.")])).
Proof.
  intros size. split.
  - intros Hi Hs. unfold encode_keyIndex, Js.rem. fold size.
    destruct (Z.eqb_spec size 0); [lia|].
    rewrite Z.rem_mod_nonneg by lia. unfold ring_at.
    pose proof (Z.mod_pos_bound (_currentKeyIndex this) size Hs).
    destruct (Z.ltb_spec (_currentKeyIndex this mod size) 0); [lia|reflexivity].
  - intros Hi. apply encode_no_key. unfold encode_keyIndex, Js.rem. fold size.
    destruct (Z.eqb_spec size 0); [reflexivity|].
    assert (Hrem : Z.rem (_currentKeyIndex this) size = _currentKeyIndex this).
    { rewrite <- (Z.opp_involutive (_currentKeyIndex this)) at 1.
      rewrite Z.rem_opp_l' , Z.rem_small by lia. lia. }
    rewrite Hrem. unfold ring_at.
    destruct (Z.ltb_spec (_currentKeyIndex this) 0); [reflexivity|lia].
Qed.

End NonceFields.

Lemma encoded_nonce_fields_witness :
  take 4 (wire_nonce (data (Toy.sent 7 (Toy.frame key Toy.payload_even)
                              (Toy.context 0))))
  = Js.be32 42.
Proof.
  refine (proj1 (proj2 (encoded_nonce_fields 7 (Toy.frame key Toy.payload_even)
                          (Toy.sent 7 (Toy.frame key Toy.payload_even) (Toy.context 0))
                          (Toy.context 0) _))).
  vm_compute. left.
Defined.

(** Sources 42 and 42 + 2^32 at the same timestamp and send count. *)
Lemma nonce_equal_iff_witness :
  Toy.iv0 = Toy.iv0
  <-> 42 mod 2 ^ 32 = (42 + 2 ^ 32) mod 2 ^ 32
      /\ 1000 mod 2 ^ 32 = 1000 mod 2 ^ 32
      /\ Z.rem 7 0xFFFF mod 2 ^ 32 = Z.rem 7 0xFFFF mod 2 ^ 32.
Proof.
  apply (nonce_equal_iff 7 7 (Toy.frame key Toy.payload_even)
           {| type := key; timestamp := 1000;
              synchronizationSource := 42 + 2 ^ 32;
              data := Toy.bytes Toy.payload_even |}
           (Toy.context 0) (Toy.context 0)).
  - vm_compute. left.
  - vm_compute. left.
Defined.

Lemma current_index_selects_slot_witness :
  ring_at (_cryptoKeyRing (Toy.context 3)) (encode_keyIndex (Toy.context 3))
  = mjoin (_cryptoKeyRing (Toy.context 3) !! Z.to_nat (3 mod 8)).
Proof.
  apply (proj1 (current_index_selects_slot 7 (Toy.frame key Toy.payload_even)
                  (Toy.context 3))).
  - vm_compute. discriminate.
  - vm_compute. reflexivity.
Defined.

(** ** Streams of frames *)

Section Streams.
Context `{SC : SubtleCrypto}.

Lemma encodeAll_context_cons (random : Z) (chunk : RTCEncodedVideoFrame)
    (rest : list (Z * RTCEncodedVideoFrame)) (this : E2EEcontext) :
  (encodeAll ((random, chunk) :: rest) this).1
  = (encodeAll rest (_encodeFunction random chunk this).1).1.
Proof.
  change (encodeAll ((random, chunk) :: rest) this)
    with (let '(this', evs) := _encodeFunction random chunk this in
          let '(this'', evs') := encodeAll rest this' in
          (this'', evs ++ evs')).
  destruct (_encodeFunction random chunk this) as [this' evs]. cbn [fst snd].
  now destruct (encodeAll rest this') as [this'' evs'].
Qed.

Lemma decodeAll_cons (chunk : RTCEncodedVideoFrame)
    (rest : list RTCEncodedVideoFrame) (this : E2EEcontext) :
  decodeAll (chunk :: rest) this
  = ((decodeAll rest this).1, (_decodeFunction chunk this).2 ++ (decodeAll rest this).2).
Proof.
  change (decodeAll (chunk :: rest) this)
    with (let '(this', evs) := _decodeFunction chunk this in
          let '(this'', evs') := decodeAll rest this' in
          (this'', evs ++ evs')).
  pose proof (decode_context chunk this) as Hc.
  destruct (_decodeFunction chunk this) as [this' evs]. cbn [fst snd] in *.
  subst this'. now destruct (decodeAll rest this) as [this'' evs'].
Qed.

Lemma ring_at_empty (ring : list (option CryptoKey)) (i : option Z) :
  Forall (fun slot => slot = None) ring -> ring_at ring i = None.
Proof.
  intros Hempty. destruct i as [i|]; [|reflexivity]. unfold ring_at.
  destruct (i <? 0); [reflexivity|].
  destruct (ring !! Z.to_nat i) as [slot|] eqn:Hl; [|reflexivity].
  apply (Forall_lookup_1 _ _ _ _ Hempty) in Hl. now subst slot.
Qed.

(** While every slot of the ring is empty (from the constructor on, and
    [setKey] never fills one) the decoder is transparent: a stream of frames
    is enqueued as it came, in order and unmodified, with no report, no error
    and no change of the context. *)
Theorem decoder_transparent_without_keys (frames : list RTCEncodedVideoFrame)
    (this : E2EEcontext) :
  Forall (fun slot => slot = None) (_cryptoKeyRing this) ->
  decodeAll frames this = (this, map Enqueue frames)
  /\ enqueued (decodeAll frames this).2 = frames
  /\ logged (decodeAll frames this).2 = []
  /\ raises (decodeAll frames this).2 = false.
Proof.
  intros Hempty.
  assert (Hrun : decodeAll frames this = (this, map Enqueue frames)).
  { induction frames as [|chunk rest IH]; [reflexivity|].
    rewrite decodeAll_cons, IH, decode_no_key by now apply ring_at_empty.
    reflexivity. }
  rewrite Hrun. cbn [snd]. split; [reflexivity|].
  clear Hrun. induction frames as [|chunk rest (IHe & IHl & IHr)];
    [now repeat split|].
  cbn [map]. repeat split.
  - change (enqueued (Enqueue chunk :: map Enqueue rest))
      with (chunk :: enqueued (map Enqueue rest)).
    now rewrite IHe.
  - exact IHl.
  - exact IHr.
Qed.

(** While no key is active the encoder drops a whole stream: nothing is
    enqueued, every frame is reported once, no error is raised and the context
    (the send counters included) stays as it was. *)
Theorem encoder_stream_without_key (frames : list (Z * RTCEncodedVideoFrame))
    (this : E2EEcontext) :
  ring_at (_cryptoKeyRing this) (encode_keyIndex this) = None ->
  (encodeAll frames this).1 = this
  /\ enqueued (encodeAll frames this).2 = []
  /\ logged (encodeAll frames this).2
     = map (fun _ => Message "Could not encrypt frame as there is no key.") frames
  /\ raises (encodeAll frames this).2 = false.
Proof.
  intros Hk. induction frames as [|[random chunk] rest (IHc & IHe & IHl & IHr)];
    [now repeat split|].
  rewrite encodeAll_context_cons, encodeAll_cons, enqueued_app, logged_app, raises_app.
  rewrite encode_no_key by assumption. cbn [fst snd].
  rewrite IHc, IHe, IHl, IHr. now repeat split.
Qed.

Lemma encode_context_cases (random : Z) (chunk : RTCEncodedVideoFrame)
    (this : E2EEcontext) :
  (_encodeFunction random chunk this).1 = this
  \/ (_encodeFunction random chunk this).1 = counted random chunk this.
Proof.
  destruct (encode_cases random chunk this)
    as [Hk|k Hk Hs|k Hk Hf He|k ct Hk Hf He]; auto.
Qed.

Lemma encode_step_preserves (random : Z) (chunk : RTCEncodedVideoFrame)
    (this : E2EEcontext) :
  _cryptoKeyRing (_encodeFunction random chunk this).1 = _cryptoKeyRing this
  /\ _currentKeyIndex (_encodeFunction random chunk this).1 = _currentKeyIndex this
  /\ _options (_encodeFunction random chunk this).1 = _options this
  /\ forall s : Z,
      s <> synchronizationSource chunk ->
      _sendCounts (_encodeFunction random chunk this).1 !! s = _sendCounts this !! s.
Proof.
  destruct (encode_context_cases random chunk this) as [->| ->];
    [now repeat split|].
  cbn [counted _cryptoKeyRing _currentKeyIndex _options _sendCounts].
  split; [reflexivity|]. split; [reflexivity|]. split; [reflexivity|].
  intros s Hs. now rewrite lookup_insert_ne by auto.
Qed.

(** A stream through the encoder leaves the ring, the current index and the
    options as they were, and leaves untouched the counter of every media
    source that sent none of the frames. *)
Theorem encodeAll_preserves (frames : list (Z * RTCEncodedVideoFrame))
    (this : E2EEcontext) :
  let this' := (encodeAll frames this).1 in
  _cryptoKeyRing this' = _cryptoKeyRing this
  /\ _currentKeyIndex this' = _currentKeyIndex this
  /\ _options this' = _options this
  /\ forall s : Z,
      Forall (fun rf => synchronizationSource rf.2 <> s) frames ->
      _sendCounts this' !! s = _sendCounts this !! s.
Proof.
  revert this. induction frames as [|[random chunk] rest IH]; intros this.
  - now repeat split.
  - cbv zeta. rewrite encodeAll_context_cons.
    destruct (IH (_encodeFunction random chunk this).1) as (IHr & IHi & IHo & IHc).
    destruct (encode_step_preserves random chunk this) as (Hr & Hi & Ho & Hc).
    rewrite IHr, IHi, IHo, Hr, Hi, Ho.
    split; [reflexivity|]. split; [reflexivity|]. split; [reflexivity|].
    intros s Hs. apply Forall_cons in Hs as [Hs0 Hs]. cbn [snd] in Hs0.
    rewrite IHc by assumption. apply Hc. congruence.
Qed.

(** With a key active, a stream of [n] frames of one media source advances
    the counter of that source by [n], from the count of its first frame
    (the table's entry, or the random seed when there was none), whether the
    frames were enqueued, rejected by the cipher or too short. *)
Theorem encodeAll_counter_advance (s : Z) (k : CryptoKey)
    (frames : list (Z * RTCEncodedVideoFrame)) :
  forall (this : E2EEcontext) (random : Z) (chunk : RTCEncodedVideoFrame)
         (rest : list (Z * RTCEncodedVideoFrame)),
    ring_at (_cryptoKeyRing this) (encode_keyIndex this) = Some k ->
    Forall (fun rf => synchronizationSource rf.2 = s) frames ->
    frames = (random, chunk) :: rest ->
    _sendCounts (encodeAll frames this).1 !! s
    = Some (sendCount_for random chunk this + Z.of_nat (length frames)).
Proof.
  induction frames as [|[random0 chunk0] rest0 IH];
    intros this random chunk rest Hk Hs Heq; [discriminate|].
  injection Heq as -> -> ->.
  apply Forall_cons in Hs as [Hs0 Hs]. cbn [snd] in Hs0.
  rewrite encodeAll_context_cons, (encode_context_with_key _ _ _ k Hk).
  destruct rest as [|[random' chunk'] rest'].
  - cbn [encodeAll fst counted _sendCounts length]. rewrite <- Hs0.
    now rewrite lookup_insert_eq.
  - rewrite (IH _ random' chunk' rest'); [|now rewrite counted_key|exact Hs|reflexivity].
    apply Forall_cons in Hs as [Hs1 _]. cbn [snd] in Hs1.
    rewrite counted_next by congruence. f_equal. cbn [length]. lia.
Qed.

End Streams.

Lemma decoder_transparent_without_keys_witness :
  enqueued (decodeAll [Toy.frame key [0]; Toy.frame delta Toy.payload_odd]
              (constructor "salt")).2
  = [Toy.frame key [0]; Toy.frame delta Toy.payload_odd].
Proof.
  refine (proj1 (proj2 (decoder_transparent_without_keys
                          [Toy.frame key [0]; Toy.frame delta Toy.payload_odd]
                          (constructor "salt") _))).
  apply Forall_replicate. reflexivity.
Defined.

Lemma encoder_stream_without_key_witness :
  enqueued (encodeAll (Toy.burst 3 (Toy.frame key Toy.payload_even))
              (constructor "salt")).2 = [].
Proof.
  refine (proj1 (proj2 (encoder_stream_without_key
                          (Toy.burst 3 (Toy.frame key Toy.payload_even))
                          (constructor "salt") _))).
  reflexivity.
Defined.

Lemma encodeAll_preserves_witness :
  _sendCounts (encodeAll (Toy.burst 3 (Toy.frame key Toy.payload_even))
                 (Toy.context 0)).1 !! 43
  = _sendCounts (Toy.context 0) !! 43.
Proof.
  destruct (encodeAll_preserves (Toy.burst 3 (Toy.frame key Toy.payload_even))
              (Toy.context 0)) as (_ & _ & _ & H).
  apply H. apply Forall_replicate. cbn. lia.
Defined.

Lemma encodeAll_counter_advance_witness :
  _sendCounts (encodeAll (Toy.burst 3 (Toy.frame key Toy.payload_even))
                 (Toy.context 0)).1 !! 42
  = Some (7 + 3).
Proof.
  apply (@encodeAll_counter_advance Toy.crypto 42 x07
           (Toy.burst 3 (Toy.frame key Toy.payload_even)) (Toy.context 0)
           7 (Toy.frame key Toy.payload_even)
           (Toy.burst 2 (Toy.frame key Toy.payload_even))).
  - reflexivity.
  - apply Forall_replicate. reflexivity.
  - reflexivity.
Defined.

(** ** The period of the counter field *)

Section NoncePeriod.
Context `{SC : SubtleCrypto}.

Lemma encode_nonces_fit (random : Z) (chunk : RTCEncodedVideoFrame)
    (this : E2EEcontext) (k : CryptoKey) :
  ring_at (_cryptoKeyRing this) (encode_keyIndex this) = Some k ->
  unencryptedBytes (type chunk) <= Js.byteLength (data chunk) ->
  nonces (_encodeFunction random chunk this).2
  = [encode_iv chunk (sendCount_for random chunk this)].
Proof.
  intros Hk Hfit.
  destruct (encode_cases random chunk this)
    as [Hk'|k' Hk' Hs|k' Hk' Hf He|k' ct Hk' Hf He];
    [congruence|lia|reflexivity..].
Qed.

(** The nonce of the frame at position [i] of a stream of one source is
    built from the count of the first frame plus [i]. *)
Lemma encodeAll_nonce_at (s : Z) (k : CryptoKey)
    (frames : list (Z * RTCEncodedVideoFrame)) :
  forall (this : E2EEcontext) (i : nat) (random random0 : Z)
         (chunk chunk0 : RTCEncodedVideoFrame)
         (rest : list (Z * RTCEncodedVideoFrame)),
    ring_at (_cryptoKeyRing this) (encode_keyIndex this) = Some k ->
    Forall (fun rf => synchronizationSource rf.2 = s) frames ->
    Forall (fun rf => unencryptedBytes (type rf.2) <= Js.byteLength (data rf.2))
      frames ->
    frames = (random0, chunk0) :: rest ->
    frames !! i = Some (random, chunk) ->
    nonces (encodeAll frames this).2 !! i
    = Some (encode_iv chunk (sendCount_for random0 chunk0 this + Z.of_nat i)).
Proof.
  induction frames as [|[r0 c0] rest0 IH];
    intros this i random random0 chunk chunk0 rest Hk Hs Hfit Heq Hi;
    [discriminate|].
  injection Heq as -> -> ->.
  apply Forall_cons in Hs as [Hs0 Hs]. apply Forall_cons in Hfit as [Hfit0 Hfit].
  cbn [snd] in Hs0, Hfit0.
  rewrite encodeAll_cons, nonces_app, (encode_nonces_fit _ _ _ k) by assumption.
  rewrite (encode_context_with_key _ _ _ k Hk).
  destruct i as [|j].
  - cbn in Hi. injection Hi as -> ->. cbn. now rewrite Z.add_0_r.
  - cbn [lookup list_lookup app] in Hi |- *.
    change (([encode_iv chunk0 (sendCount_for random0 chunk0 this)]
             ++ nonces (encodeAll rest (counted random0 chunk0 this)).2) !! S j)
      with (nonces (encodeAll rest (counted random0 chunk0 this)).2 !! j).
    change (((random0, chunk0) :: rest) !! S j) with (rest !! j) in Hi.
    destruct rest as [|[r1 c1] rest1]; [discriminate|].
    rewrite (IH _ j random r1 chunk c1 rest1);
      [|now rewrite counted_key|exact Hs|exact Hfit|reflexivity|exact Hi].
    apply Forall_cons in Hs as [Hs1 _]. cbn [snd] in Hs1.
    rewrite counted_next by congruence. do 2 f_equal. lia.
Qed.

(** The counter field has period 0xFFFF.  In a stream of frames of one media
    source, encoded with a key active from a count that is not negative, the
    frames at positions [i] and [i + 65535] carry the same bytes [8..12) in
    their nonce, and their whole nonces are equal exactly when their
    timestamps agree modulo 2^32. *)
Theorem nonce_counter_period (s : Z) (k : CryptoKey)
    (frames rest : list (Z * RTCEncodedVideoFrame)) (this : E2EEcontext)
    (i : nat) (random0 random1 random2 : Z)
    (chunk0 chunk1 chunk2 : RTCEncodedVideoFrame) :
  ring_at (_cryptoKeyRing this) (encode_keyIndex this) = Some k ->
  Forall (fun rf => synchronizationSource rf.2 = s) frames ->
  Forall (fun rf => unencryptedBytes (type rf.2) <= Js.byteLength (data rf.2))
    frames ->
  frames = (random0, chunk0) :: rest ->
  0 <= sendCount_for random0 chunk0 this ->
  frames !! i = Some (random1, chunk1) ->
  frames !! (i + Z.to_nat 0xFFFF)%nat = Some (random2, chunk2) ->
  exists iv1 iv2,
    nonces (encodeAll frames this).2 !! i = Some iv1
    /\ nonces (encodeAll frames this).2 !! (i + Z.to_nat 0xFFFF)%nat = Some iv2
    /\ drop 8 iv1 = drop 8 iv2
    /\ (iv1 = iv2 <-> timestamp chunk1 mod 2 ^ 32 = timestamp chunk2 mod 2 ^ 32).
Proof.
  intros Hk Hs Hfit Heq Hc H1 H2.
  set (c := sendCount_for random0 chunk0 this) in *.
  exists (encode_iv chunk1 (c + Z.of_nat i)),
         (encode_iv chunk2 (c + Z.of_nat (i + Z.to_nat 0xFFFF))).
  split; [now apply (encodeAll_nonce_at s k frames this i random1 random0 _ _ rest)|].
  split; [now apply (encodeAll_nonce_at s k frames this _ random2 random0 _ _ rest)|].
  assert (Hrem : Z.rem (c + Z.of_nat (i + Z.to_nat 0xFFFF)) 0xFFFF
                 = Z.rem (c + Z.of_nat i) 0xFFFF).
  { rewrite !Z.rem_mod_nonneg by lia.
    replace (c + Z.of_nat (i + Z.to_nat 0xFFFF))
      with (c + Z.of_nat i + 1 * 0xFFFF) by lia.
    apply Z_mod_plus_full. }
  assert (Hs1 : synchronizationSource chunk1 = s)
    by exact (Forall_lookup_1 _ _ _ _ Hs H1).
  assert (Hs2 : synchronizationSource chunk2 = s)
    by exact (Forall_lookup_1 _ _ _ _ Hs H2).
  rewrite !encode_iv_eq, Hrem, Hs1, Hs2. split; [reflexivity|]. split.
  - intros H. apply app_inj_1 in H as [_ H]; [|reflexivity].
    apply app_inj_1 in H as [Ht _]; [|reflexivity].
    now apply be32_eq_iff.
  - intros Ht. apply be32_eq_iff in Ht. now rewrite Ht.
Qed.

End NoncePeriod.

(** 65536 frames of source 42 with one timestamp: the first and the last
    carry the same nonce. *)
Lemma nonce_counter_period_witness :
  exists iv,
    nonces (encodeAll (Toy.burst 65536 (Toy.frame key Toy.payload_even))
              (Toy.context 0)).2 !! 0%nat = Some iv
    /\ nonces (encodeAll (Toy.burst 65536 (Toy.frame key Toy.payload_even))
                 (Toy.context 0)).2 !! (0 + Z.to_nat 0xFFFF)%nat = Some iv.
Proof.
  destruct (@nonce_counter_period Toy.crypto 42 x07
              (Toy.burst 65536 (Toy.frame key Toy.payload_even))
              (Toy.burst 65535 (Toy.frame key Toy.payload_even))
              (Toy.context 0) 0 7 7 7
              (Toy.frame key Toy.payload_even) (Toy.frame key Toy.payload_even)
              (Toy.frame key Toy.payload_even))
    as (iv1 & iv2 & H1 & H2 & _ & Heq).
  - reflexivity.
  - apply Forall_replicate. reflexivity.
  - apply Forall_replicate. vm_compute. discriminate.
  - unfold Toy.burst.
    change (Z.to_nat 65536) with (S (Z.to_nat 65535)). reflexivity.
  - vm_compute. discriminate.
  - apply lookup_replicate_2. lia.
  - apply lookup_replicate_2. lia.
  - exists iv1. split; [exact H1|]. rewrite H2. f_equal. symmetry.
    now apply Heq.
Defined.

(** ** Round trip of a stream of key frames *)

Section StreamRoundtrip.
Context `{SC : SubtleCrypto} `{!AesGcm SC}.

(** The decoder, with the key in slot 0, on what the encoder builds for a
    key frame whose first byte has its low bit clear. *)
Lemma decode_encoded_key_frame (chunk : RTCEncodedVideoFrame)
    (that : E2EEcontext) (k : CryptoKey) (iv ct : list byte) :
  type chunk = key ->
  decode_chunkType (data chunk) = key ->
  10 <= Js.byteLength (data chunk) ->
  length iv = 12%nat ->
  encrypt k iv (drop 10 (data chunk)) = Some ct ->
  ring_at (_cryptoKeyRing that) (Some 0) = Some k ->
  _decodeFunction (with_data chunk (take 10 (data chunk) ++ ct ++ iv ++ [x00])) that
  = (that, [SubtleDecrypt k iv ct; Enqueue chunk]).
Proof.
  intros Htype Hbit Hfit Hiv Henc Hk.
  assert (Hpre : length (take 10 (data chunk)) = 10%nat)
    by (rewrite length_take; unfold Js.byteLength in Hfit; lia).
  rewrite (decode_wire _ that k (take 10 (data chunk)) ct iv (drop 10 (data chunk))).
  - rewrite Hpre. change (Z.to_nat (10 - Z.of_nat 10)) with 0%nat.
    cbn [replicate]. rewrite app_nil_r, take_drop, with_data_back. reflexivity.
  - reflexivity.
  - rewrite decode_chunkType_take, Hbit, Hpre by lia. reflexivity.
  - exact Hiv.
  - exact Hk.
  - now apply decrypt_encrypt.
Qed.

(** A stream of key frames survives the round trip.  Frames of type [key]
    with at least 10 bytes and an even first byte are encoded under an active
    key the cipher never rejects; what the encoder enqueued is decoded by a
    context that holds the same key in slot 0.  The decoder enqueues the
    original frames, all of them, in order, byte for byte, and neither side
    raises an error. *)
Theorem key_frames_stream_roundtrip (frames : list (Z * RTCEncodedVideoFrame))
    (k : CryptoKey) (that : E2EEcontext) :
  forall this : E2EEcontext,
    ring_at (_cryptoKeyRing this) (encode_keyIndex this) = Some k ->
    ring_at (_cryptoKeyRing that) (Some 0) = Some k ->
    (forall iv pt, is_Some (encrypt k iv pt)) ->
    Forall (fun rf => type rf.2 = key
                      /\ decode_chunkType (data rf.2) = key
                      /\ 10 <= Js.byteLength (data rf.2)) frames ->
    enqueued (decodeAll (enqueued (encodeAll frames this).2) that).2 = frames.*2
    /\ length (enqueued (encodeAll frames this).2) = length frames
    /\ raises (encodeAll frames this).2 = false
    /\ raises (decodeAll (enqueued (encodeAll frames this).2) that).2 = false.
Proof.
  induction frames as [|[random chunk] rest IH]; intros this Hk Hthat Htotal Hall.
  - now repeat split.
  - apply Forall_cons in Hall as [(Htype & Hbit & Hfit) Hall].
    cbn [snd] in Htype, Hbit, Hfit.
    destruct (Htotal (encode_iv chunk (sendCount_for random chunk this))
                (drop 10 (data chunk))) as [ct Hct].
    assert (Hrun : _encodeFunction random chunk this
                   = (counted random chunk this,
                      [SubtleEncrypt k (encode_iv chunk (sendCount_for random chunk this))
                         (drop 10 (data chunk));
                       Enqueue (with_data chunk
                         (take 10 (data chunk) ++ ct
                          ++ encode_iv chunk (sendCount_for random chunk this)
                          ++ [x00]))])).
    { rewrite (encode_encrypted random chunk this k ct); rewrite ?Htype;
        try assumption; reflexivity. }
    destruct (IH (counted random chunk this)) as (IHd & IHn & IHe & IHr);
      [now rewrite counted_key|assumption..|].
    rewrite encodeAll_cons, Hrun. cbn [fst snd].
    rewrite enqueued_app, raises_app.
    change (enqueued [SubtleEncrypt k _ _; Enqueue ?w]) with [w].
    cbn [app]. rewrite decodeAll_cons.
    rewrite (decode_encoded_key_frame chunk that k) by
      (try assumption; apply encode_iv_length).
    cbn [fst snd]. rewrite enqueued_app, raises_app.
    change (enqueued [SubtleDecrypt k _ _; Enqueue ?w]) with [w].
    cbn [app length fmap list_fmap snd raises existsb orb].
    rewrite IHd, IHn, IHe, IHr. now repeat split.
Qed.

End StreamRoundtrip.

Lemma key_frames_stream_roundtrip_witness :
  enqueued
    (decodeAll
       (enqueued (encodeAll (Toy.burst 3 (Toy.frame key Toy.payload_even))
                    (Toy.context 0)).2)
       (Toy.context 0)).2
  = (Toy.burst 3 (Toy.frame key Toy.payload_even)).*2.
Proof.
  refine (proj1 (@key_frames_stream_roundtrip Toy.crypto toy_aes_gcm
                   (Toy.burst 3 (Toy.frame key Toy.payload_even)) x07
                   (Toy.context 0) (Toy.context 0) _ _ _ _)).
  - reflexivity.
  - reflexivity.
  - intros iv pt. eexists. reflexivity.
  - apply Forall_replicate. cbn [snd]. split; [reflexivity|].
    split; [reflexivity|]. vm_compute. discriminate.
Defined.

(** ** From the encoder to a decoder *)

Section Handover.
Context `{SC : SubtleCrypto}.

(** What encryption costs.  When the cipher appends a 16-byte tag, a frame
    the encoder enqueues is 29 bytes longer than its input: the tag, the
    12-byte iv and the index byte. *)
Theorem encoded_frame_overhead (random : Z) (chunk wire : RTCEncodedVideoFrame)
    (this : E2EEcontext) :
  (forall (k : CryptoKey) (iv pt ct : list byte),
      encrypt k iv pt = Some ct -> length ct = (length pt + 16)%nat) ->
  wire ∈ enqueued (_encodeFunction random chunk this).2 ->
  Js.byteLength (data wire) = Js.byteLength (data chunk) + 29.
Proof.
  intros Htag Hin.
  destruct (encode_wire_layout _ _ _ _ Hin)
    as (k & ct & Hk & Hfit & Henc & _ & ->).
  apply Htag in Henc. cbn [data with_data]. rewrite layout_byteLength.
  rewrite encode_iv_length, Henc, length_take, length_drop.
  pose proof (unencryptedBytes_pos (type chunk)).
  unfold Js.byteLength in *. lia.
Qed.

(** A decoder always looks for the key of an encoded frame in slot 0, the
    index byte the encoder leaves.  When that slot is empty the frame is
    enqueued as it arrived, still encrypted, whatever the other slots hold. *)
Theorem decoder_without_key_forwards_ciphertext (random : Z)
    (chunk wire : RTCEncodedVideoFrame) (this that : E2EEcontext) :
  wire ∈ enqueued (_encodeFunction random chunk this).2 ->
  decode_keyIndex (data wire) = Some 0
  /\ (ring_at (_cryptoKeyRing that) (Some 0) = None ->
      _decodeFunction wire that = (that, [Enqueue wire])).
Proof.
  intros Hin.
  destruct (encode_wire_layout _ _ _ _ Hin)
    as (k & ct & Hk & Hfit & Henc & _ & Hwire).
  assert (Hidx : decode_keyIndex (data wire) = Some 0)
    by (rewrite Hwire; cbn [data with_data]; apply wire_keyIndex).
  split; [exact Hidx|]. intros Hnone. apply decode_no_key. now rewrite Hidx.
Qed.

End Handover.

(** A key frame of 50 bytes becomes one of 10 + (40 + 16) + 12 + 1 bytes. *)
Lemma encoded_frame_overhead_witness :
  Js.byteLength
    (data (Toy.sent 7 (Toy.frame key (replicate 50 0)) (Toy.context 0)))
  = 50 + 29.
Proof.
  apply (encoded_frame_overhead 7 (Toy.frame key (replicate 50 0))
           (Toy.sent 7 (Toy.frame key (replicate 50 0)) (Toy.context 0))
           (Toy.context 0)).
  - exact toy_encrypt_length.
  - vm_compute. left.
Defined.

Lemma decoder_without_key_forwards_ciphertext_witness :
  _decodeFunction (Toy.sent 7 (Toy.frame key Toy.payload_even) (Toy.context 1))
    (Toy.context 1)
  = (Toy.context 1,
     [Enqueue (Toy.sent 7 (Toy.frame key Toy.payload_even) (Toy.context 1))]).
Proof.
  refine (proj2 (decoder_without_key_forwards_ciphertext 7
                   (Toy.frame key Toy.payload_even)
                   (Toy.sent 7 (Toy.frame key Toy.payload_even) (Toy.context 1))
                   (Toy.context 1) (Toy.context 1) _) _).
  - vm_compute. left.
  - reflexivity.
Defined.
